(** * Device and swapchain negotiation of the Vulkan renderer (src/src/main.cpp)

    A shallow embedding of the decision logic of [HelloTriangleApplication]:
    queue-family discovery, extension and swapchain checks, device scoring
    and selection, and the derivation of the swapchain parameters.

    Conventions.
    - [uint32_t] and [int] values are integers of [Z]; where the program
      computes with them the wrap-around is written out ([to_uint32],
      [to_int]).  Counts that the driver reports (number of devices, of
      queue families, of formats) are the lengths of the reported lists.
    - A [VkPhysicalDevice] handle is modelled by the data the Vulkan driver
      reports for it (and for the application's one surface).
    - Functions that only query the driver run in the writer monad [Query],
      which records every driver call in program order.  Functions that
      throw or assign members of the application object run in [App]. *)

From stdpp Require Import base numbers list gmap strings.

#[local] Set Warnings "-clear-no-such-hyp".

Local Open Scope Z_scope.

(** ** Machine integers *)

Definition UINT32_MAX : Z := 4294967295.
Definition INT_MAX : Z := 2147483647.

(** Conversion to [uint32_t]: reduction modulo 2^32. *)
Definition to_uint32 (z : Z) : Z := z mod 4294967296.

(** Conversion of a [uint32_t] bit pattern to [int] (two's complement, as
    C++20 defines it and as GCC, Clang and MSVC implement it before). *)
Definition to_int (z : Z) : Z :=
  let u := to_uint32 z in
  if u <? 2147483648 then u else u - 4294967296.

(** [VkBool32] is a [uint32_t]; in a condition every nonzero value is true. *)
Definition VkBool32 : Type := Z.
Definition VK_FALSE : VkBool32 := 0.
Definition VK_TRUE : VkBool32 := 1.
Definition truthy (b : Z) : bool := negb (b =? 0).

(** ** Vulkan data (vulkan_core.h; the values of the constants are those of
       the Vulkan headers, which are not part of the repository) *)

Inductive VkPhysicalDeviceType : Type :=
| VK_PHYSICAL_DEVICE_TYPE_OTHER
| VK_PHYSICAL_DEVICE_TYPE_INTEGRATED_GPU
| VK_PHYSICAL_DEVICE_TYPE_DISCRETE_GPU
| VK_PHYSICAL_DEVICE_TYPE_VIRTUAL_GPU
| VK_PHYSICAL_DEVICE_TYPE_CPU.

#[global] Instance VkPhysicalDeviceType_eq_dec : EqDecision VkPhysicalDeviceType.
Proof. solve_decision. Defined.

Definition VK_QUEUE_GRAPHICS_BIT : Z := 1.
Definition VK_FORMAT_B8G8R8A8_SRGB : Z := 50.
Definition VK_COLOR_SPACE_SRGB_NONLINEAR_KHR : Z := 0.
Definition VK_PRESENT_MODE_MAILBOX_KHR : Z := 1.
Definition VK_PRESENT_MODE_FIFO_KHR : Z := 2.
Definition VK_KHR_SWAPCHAIN_EXTENSION_NAME : string := "VK_KHR_swapchain".

Record VkPhysicalDeviceLimits : Type := {
  maxImageDimension2D : Z
}.

Record VkPhysicalDeviceProperties : Type := {
  deviceType : VkPhysicalDeviceType;
  limits : VkPhysicalDeviceLimits
}.

Record VkPhysicalDeviceFeatures : Type := {
  geometryShader : VkBool32
}.

Record VkQueueFamilyProperties : Type := {
  queueFlags : Z
}.

Record VkExtensionProperties : Type := {
  extensionName : string
}.

Record VkExtent2D : Type := {
  width : Z;
  height : Z
}.

Record VkSurfaceCapabilitiesKHR : Type := {
  minImageCount : Z;
  maxImageCount : Z;
  currentExtent : VkExtent2D;
  minImageExtent : VkExtent2D;
  maxImageExtent : VkExtent2D;
  currentTransform : Z
}.

Record VkSurfaceFormatKHR : Type := {
  format : Z;
  colorSpace : Z
}.

Definition VkPresentModeKHR : Type := Z.

(** One queue family as the driver knows it: its properties, and whether it
    can present to the application's surface. *)
Record QueueFamily : Type := {
  properties : VkQueueFamilyProperties;
  presentSupport : VkBool32
}.

(** What the driver reports for one physical device. *)
Record VkPhysicalDevice : Type := {
  deviceProperties : VkPhysicalDeviceProperties;
  deviceFeatures : VkPhysicalDeviceFeatures;
  queueFamilies : list QueueFamily;
  availableExtensions : list VkExtensionProperties;
  capabilities : VkSurfaceCapabilitiesKHR;
  formats : list VkSurfaceFormatKHR;
  presentModes : list VkPresentModeKHR
}.

(** ** Globals of main.cpp *)

Definition WIDTH : Z := 800.
Definition HEIGHT : Z := 600.

Definition deviceExtensions : list string := [VK_KHR_SWAPCHAIN_EXTENSION_NAME].

(** ** struct QueueFamilyIndices *)

Record QueueFamilyIndices : Type := {
  graphicsFamily : option Z;
  presentFamily : option Z
}.

Definition isComplete (indices : QueueFamilyIndices) : bool :=
  bool_decide (is_Some (graphicsFamily indices))
  && bool_decide (is_Some (presentFamily indices)).

(** ** struct SwapChainSupportDetails *)

Record SwapChainSupportDetails : Type := {
  details_capabilities : VkSurfaceCapabilitiesKHR;
  details_formats : list VkSurfaceFormatKHR;
  details_presentModes : list VkPresentModeKHR
}.

(** ** Driver calls and the [Query] monad *)

Inductive ApiCall : Type :=
| EnumeratePhysicalDevices
| GetPhysicalDeviceProperties (device : VkPhysicalDevice)
| GetPhysicalDeviceFeatures (device : VkPhysicalDevice)
| GetPhysicalDeviceQueueFamilyProperties (device : VkPhysicalDevice)
| GetPhysicalDeviceSurfaceSupportKHR (device : VkPhysicalDevice) (queueFamilyIndex : Z)
| EnumerateDeviceExtensionProperties (device : VkPhysicalDevice)
| GetPhysicalDeviceSurfaceCapabilitiesKHR (device : VkPhysicalDevice)
| GetPhysicalDeviceSurfaceFormatsKHR (device : VkPhysicalDevice)
| GetPhysicalDeviceSurfacePresentModesKHR (device : VkPhysicalDevice).

(** A computation that returns [value] after issuing the calls [issued], in
    that order. *)
Record Query (A : Type) : Type := MkQuery {
  value : A;
  issued : list ApiCall
}.
Arguments MkQuery {A} _ _.
Arguments value {A} _.
Arguments issued {A} _.

#[global] Instance Query_ret : MRet Query := λ A a, MkQuery a [].
#[global] Instance Query_bind : MBind Query := λ A B f m,
  MkQuery (value (f (value m))) (issued m ++ issued (f (value m))).

Definition vkGetPhysicalDeviceProperties (device : VkPhysicalDevice)
  : Query VkPhysicalDeviceProperties :=
  MkQuery (deviceProperties device) [GetPhysicalDeviceProperties device].

Definition vkGetPhysicalDeviceFeatures (device : VkPhysicalDevice)
  : Query VkPhysicalDeviceFeatures :=
  MkQuery (deviceFeatures device) [GetPhysicalDeviceFeatures device].

Definition vkGetPhysicalDeviceQueueFamilyProperties (device : VkPhysicalDevice)
  : Query (list VkQueueFamilyProperties) :=
  MkQuery (properties <$> queueFamilies device)
          [GetPhysicalDeviceQueueFamilyProperties device].

(** [presentSupport] is initialised to false by the caller and written by
    the driver for an existing family. *)
Definition vkGetPhysicalDeviceSurfaceSupportKHR
    (device : VkPhysicalDevice) (queueFamilyIndex : Z) : Query VkBool32 :=
  MkQuery (default VK_FALSE
             (presentSupport <$> queueFamilies device !! Z.to_nat queueFamilyIndex))
          [GetPhysicalDeviceSurfaceSupportKHR device queueFamilyIndex].

Definition vkEnumerateDeviceExtensionProperties (device : VkPhysicalDevice)
  : Query (list VkExtensionProperties) :=
  MkQuery (availableExtensions device) [EnumerateDeviceExtensionProperties device].

Definition vkGetPhysicalDeviceSurfaceCapabilitiesKHR (device : VkPhysicalDevice)
  : Query VkSurfaceCapabilitiesKHR :=
  MkQuery (capabilities device) [GetPhysicalDeviceSurfaceCapabilitiesKHR device].

Definition vkGetPhysicalDeviceSurfaceFormatsKHR (device : VkPhysicalDevice)
  : Query (list VkSurfaceFormatKHR) :=
  MkQuery (formats device) [GetPhysicalDeviceSurfaceFormatsKHR device].

Definition vkGetPhysicalDeviceSurfacePresentModesKHR (device : VkPhysicalDevice)
  : Query (list VkPresentModeKHR) :=
  MkQuery (presentModes device) [GetPhysicalDeviceSurfacePresentModesKHR device].

(** ** findQueueFamilies (main.cpp 227-261) *)

(** The range-for loop with its [int i]; [i] is converted to [uint32_t] where
    it is stored or passed.  [++i] is written without overflow: the loop
    increments [i] at most once per queue family. *)
Fixpoint findQueueFamilies_loop (device : VkPhysicalDevice)
    (families : list VkQueueFamilyProperties) (i : Z)
    (indices : QueueFamilyIndices) : Query QueueFamilyIndices :=
  match families with
  | [] => mret indices
  | queueFamily :: rest =>
      let indices :=
        if truthy (Z.land (queueFlags queueFamily) VK_QUEUE_GRAPHICS_BIT)
        then {| graphicsFamily := Some (to_uint32 i);
                presentFamily := presentFamily indices |}
        else indices in
      support ← vkGetPhysicalDeviceSurfaceSupportKHR device (to_uint32 i);
      let indices :=
        if truthy support
        then {| graphicsFamily := graphicsFamily indices;
                presentFamily := Some (to_uint32 i) |}
        else indices in
      if isComplete indices then mret indices
      else findQueueFamilies_loop device rest (i + 1) indices
  end.

Definition findQueueFamilies (device : VkPhysicalDevice) : Query QueueFamilyIndices :=
  _ ← vkGetPhysicalDeviceQueueFamilyProperties device;
  families ← vkGetPhysicalDeviceQueueFamilyProperties device;
  findQueueFamilies_loop device families 0
    {| graphicsFamily := None; presentFamily := None |}.

(** ** checkDeviceExtensionSupport (main.cpp 332-348) *)

Definition checkDeviceExtensionSupport (device : VkPhysicalDevice) : Query bool :=
  _ ← vkEnumerateDeviceExtensionProperties device;
  available ← vkEnumerateDeviceExtensionProperties device;
  let requiredExtensions : gset string := list_to_set deviceExtensions in
  let requiredExtensions :=
    foldl (λ (required : gset string) extension,
             required ∖ {[extensionName extension]})
          requiredExtensions available in
  mret (bool_decide (requiredExtensions = ∅)).

(** ** querySwapChainSupport (main.cpp 534-555) *)

Definition querySwapChainSupport (device : VkPhysicalDevice)
  : Query SwapChainSupportDetails :=
  caps ← vkGetPhysicalDeviceSurfaceCapabilitiesKHR device;
  reported ← vkGetPhysicalDeviceSurfaceFormatsKHR device;
  let formatCount := Z.of_nat (length reported) in
  fmts ← (if truthy formatCount
          then vkGetPhysicalDeviceSurfaceFormatsKHR device
          else mret []);
  reported ← vkGetPhysicalDeviceSurfacePresentModesKHR device;
  let presentModeCount := Z.of_nat (length reported) in
  modes ← (if truthy presentModeCount
           then vkGetPhysicalDeviceSurfacePresentModesKHR device
           else mret []);
  mret {| details_capabilities := caps;
          details_formats := fmts;
          details_presentModes := modes |}.

(** [std::vector::empty]. *)
Definition vector_empty {A : Type} (v : list A) : bool :=
  match v with [] => true | _ :: _ => false end.

(** ** checkAdequateSwapChain (main.cpp 350-354) *)

Definition checkAdequateSwapChain (device : VkPhysicalDevice) : Query bool :=
  swapChainSupport ← querySwapChainSupport device;
  mret (negb (vector_empty (details_formats swapChainSupport))
        && negb (vector_empty (details_presentModes swapChainSupport))).

(** ** isDeviceSuitable (main.cpp 363-389) *)

Definition isDeviceSuitable (device : VkPhysicalDevice) : Query bool :=
  props ← vkGetPhysicalDeviceProperties device;
  features ← vkGetPhysicalDeviceFeatures device;
  indices ← findQueueFamilies device;
  extensionsSupported ← checkDeviceExtensionSupport device;
  swapChainAdequate ← (if extensionsSupported
                       then checkAdequateSwapChain device
                       else mret false);
  mret (bool_decide (deviceType props = VK_PHYSICAL_DEVICE_TYPE_DISCRETE_GPU)
        && truthy (geometryShader features)
        && isComplete indices
        && extensionsSupported
        && swapChainAdequate).

(** ** rateDeviceSuitability (main.cpp 395-433) *)

(** [score += maxImageDimension2D] adds an [int] and a [uint32_t]: the [int]
    is converted to [uint32_t], the sum is taken modulo 2^32 and converted
    back to [int]. *)
Definition rateDeviceSuitability (device : VkPhysicalDevice) : Query Z :=
  let score := 0 in
  props ← vkGetPhysicalDeviceProperties device;
  features ← vkGetPhysicalDeviceFeatures device;
  let score :=
    if bool_decide (deviceType props = VK_PHYSICAL_DEVICE_TYPE_DISCRETE_GPU)
    then score + 1000 else score in
  indices ← findQueueFamilies device;
  let score := if isComplete indices then score + 10 else score in
  let score :=
    to_int (to_uint32 (to_uint32 score + maxImageDimension2D (limits props))) in
  extensionsSupported ← checkDeviceExtensionSupport device;
  if negb (truthy (geometryShader features)) || negb extensionsSupported
  then mret 0
  else if extensionsSupported
  then adequate ← checkAdequateSwapChain device;
       if negb adequate then mret 0 else mret score
  else mret score.

(** ** The application object and the [App] monad *)

(** The devices the Vulkan instance enumerates. *)
Record VkInstance : Type := {
  physicalDevices : list VkPhysicalDevice
}.

(** The members of [HelloTriangleApplication] the selection reads and
    writes ([physicalDevice = None] is [VK_NULL_HANDLE]), with the log of
    the driver calls made so far. *)
Record Session : Type := {
  instance : VkInstance;
  physicalDevice : option VkPhysicalDevice;
  driverCalls : list ApiCall
}.

(** How a member function ends: it returns, it throws a [std::exception]
    with the message [what], or it runs into undefined behaviour. *)
Inductive outcome (A : Type) : Type :=
| Ok (a : A)
| Throw (what : string)
| Undefined.
Arguments Ok {A} _.
Arguments Throw {A} _.
Arguments Undefined {A}.

Record App (A : Type) : Type := MkApp {
  run : Session → outcome A * Session
}.
Arguments MkApp {A} _.
Arguments run {A} _ _.

#[global] Instance App_ret : MRet App := λ A a, MkApp (λ s, (Ok a, s)).
#[global] Instance App_bind : MBind App := λ A B f m,
  MkApp (λ s,
    match run m s with
    | (Ok a, s') => run (f a) s'
    | (Throw what, s') => (Throw what, s')
    | (Undefined, s') => (Undefined, s')
    end).

Definition throw {A : Type} (what : string) : App A :=
  MkApp (λ s, (Throw what, s)).

Definition undefined {A : Type} : App A :=
  MkApp (λ s, (Undefined, s)).

(** Run a driver-querying function and append its calls to the log. *)
Definition query {A : Type} (q : Query A) : App A :=
  MkApp (λ s, (Ok (value q),
               {| instance := instance s;
                  physicalDevice := physicalDevice s;
                  driverCalls := driverCalls s ++ issued q |})).

Definition get_instance : App VkInstance :=
  MkApp (λ s, (Ok (instance s), s)).

Definition get_physicalDevice : App (option VkPhysicalDevice) :=
  MkApp (λ s, (Ok (physicalDevice s), s)).

Definition set_physicalDevice (device : VkPhysicalDevice) : App unit :=
  MkApp (λ s, (Ok tt,
               {| instance := instance s;
                  physicalDevice := Some device;
                  driverCalls := driverCalls s |})).

Definition vkEnumeratePhysicalDevices (inst : VkInstance)
  : Query (list VkPhysicalDevice) :=
  MkQuery (physicalDevices inst) [EnumeratePhysicalDevices].

(** ** std::multimap<int, VkPhysicalDevice> *)

(** The entries in key order; [insert] places a new entry after every entry
    whose key is not greater (the upper bound of its key's range). *)
Definition multimap (V : Type) : Type := list (Z * V).

Fixpoint multimap_insert {V : Type} (entry : Z * V) (m : multimap V) : multimap V :=
  match m with
  | [] => [entry]
  | e :: m' =>
      if entry.1 <? e.1 then entry :: e :: m'
      else e :: multimap_insert entry m'
  end.

(** [*m.rbegin()], the entry of greatest key; none in an empty map. *)
Definition multimap_rbegin {V : Type} (m : multimap V) : option (Z * V) := last m.

(** ** pickPhysicalDevice (main.cpp 442-469) *)

Fixpoint pickPhysicalDevice_loop (devices : list VkPhysicalDevice)
    (candidates : multimap VkPhysicalDevice) : App (multimap VkPhysicalDevice) :=
  match devices with
  | [] => mret candidates
  | device :: rest =>
      score ← query (rateDeviceSuitability device);
      pickPhysicalDevice_loop rest (multimap_insert (score, device) candidates)
  end.

Definition pickPhysicalDevice : App unit :=
  inst ← get_instance;
  reported ← query (vkEnumeratePhysicalDevices inst);
  let deviceCount := Z.of_nat (length reported) in
  if deviceCount =? 0
  then throw "[ERROR] Failed to find GPUs with Vulkan support!"
  else
    devices ← query (vkEnumeratePhysicalDevices inst);
    candidates ← pickPhysicalDevice_loop devices [];
    match multimap_rbegin candidates with
    | None => undefined
    | Some best =>
        if 0 <? best.1
        then set_physicalDevice best.2
        else throw "[ERROR] Failed to find a suitable GPU!"
    end.

(** ** createLogicalDevice (main.cpp 471-520), up to [uniqueQueueFamilies] *)

(** [std::optional::value]: throws [std::bad_optional_access] when empty. *)
Definition optional_value {A : Type} (o : option A) : App A :=
  match o with
  | Some a => mret a
  | None => throw "bad optional access"
  end.

(** The queue families for which the function goes on to request a queue.
    The creation of the logical device itself is the driver's. *)
Definition createLogicalDevice_uniqueQueueFamilies : App (gset Z) :=
  selected ← get_physicalDevice;
  match selected with
  | None => undefined
  | Some device =>
      indices ← query (findQueueFamilies device);
      graphics ← optional_value (graphicsFamily indices);
      present ← optional_value (presentFamily indices);
      mret ({[graphics; present]} : gset Z)
  end.

(** ** chooseSwapSurfaceFormat (main.cpp 561-572) *)

Fixpoint chooseSwapSurfaceFormat_loop (availableFormats : list VkSurfaceFormatKHR)
  : option VkSurfaceFormatKHR :=
  match availableFormats with
  | [] => None
  | availableFormat :: rest =>
      if (format availableFormat =? VK_FORMAT_B8G8R8A8_SRGB)
         && (colorSpace availableFormat =? VK_COLOR_SPACE_SRGB_NONLINEAR_KHR)
      then Some availableFormat
      else chooseSwapSurfaceFormat_loop rest
  end.

(** [None] is the read of [availableFormats[0]] in an empty vector. *)
Definition chooseSwapSurfaceFormat (availableFormats : list VkSurfaceFormatKHR)
  : option VkSurfaceFormatKHR :=
  match chooseSwapSurfaceFormat_loop availableFormats with
  | Some availableFormat => Some availableFormat
  | None => availableFormats !! 0%nat
  end.

(** ** chooseSwapPresentMode (main.cpp 580-589) *)

Fixpoint chooseSwapPresentMode (availablePresentModes : list VkPresentModeKHR)
  : VkPresentModeKHR :=
  match availablePresentModes with
  | [] => VK_PRESENT_MODE_FIFO_KHR
  | availablePresentMode :: rest =>
      if availablePresentMode =? VK_PRESENT_MODE_MAILBOX_KHR
      then availablePresentMode
      else chooseSwapPresentMode rest
  end.

(** ** chooseSwapExtent (main.cpp 601-615) *)

Definition chooseSwapExtent (caps : VkSurfaceCapabilitiesKHR) : VkExtent2D :=
  if negb (width (currentExtent caps) =? UINT32_MAX)
  then currentExtent caps
  else
    let actualExtent := {| width := WIDTH; height := HEIGHT |} in
    {| width := Z.max (width (minImageExtent caps))
                      (Z.min (width (maxImageExtent caps)) (width actualExtent));
       height := Z.max (height (minImageExtent caps))
                       (Z.min (height (maxImageExtent caps)) (height actualExtent)) |}.

(** ** createSwapChain (main.cpp 617-675), up to the filled create info *)

(** The local [imageCount] (lines 628-633); the sum is a [uint32_t]. *)
Definition createSwapChain_imageCount (caps : VkSurfaceCapabilitiesKHR) : Z :=
  let imageCount := to_uint32 (minImageCount caps + 1) in
  if (0 <? maxImageCount caps) && (maxImageCount caps <? imageCount)
  then maxImageCount caps
  else imageCount.

Record VkSwapchainCreateInfoKHR : Type := {
  createInfo_minImageCount : Z;
  createInfo_imageFormat : Z;
  createInfo_imageColorSpace : Z;
  createInfo_imageExtent : VkExtent2D;
  createInfo_imageArrayLayers : Z;
  createInfo_preTransform : Z;
  createInfo_presentMode : VkPresentModeKHR;
  createInfo_clipped : VkBool32
}.

(** The structure handed to [vkCreateSwapchainKHR]; the creation of the
    swapchain and the retrieval of its images are the driver's. *)
Definition createSwapChain : App VkSwapchainCreateInfoKHR :=
  selected ← get_physicalDevice;
  match selected with
  | None => undefined
  | Some device =>
      swapChainSupport ← query (querySwapChainSupport device);
      match chooseSwapSurfaceFormat (details_formats swapChainSupport) with
      | None => undefined
      | Some surfaceFormat =>
          let presentMode :=
            chooseSwapPresentMode (details_presentModes swapChainSupport) in
          let extent := chooseSwapExtent (details_capabilities swapChainSupport) in
          let imageCount :=
            createSwapChain_imageCount (details_capabilities swapChainSupport) in
          mret {| createInfo_minImageCount := imageCount;
                  createInfo_imageFormat := format surfaceFormat;
                  createInfo_imageColorSpace := colorSpace surfaceFormat;
                  createInfo_imageExtent := extent;
                  createInfo_imageArrayLayers := 1;
                  createInfo_preTransform :=
                    currentTransform (details_capabilities swapChainSupport);
                  createInfo_presentMode := presentMode;
                  createInfo_clipped := VK_TRUE |}
      end
  end.

(** ** Instance creation and the debug messenger (main.cpp 21-225, 270-308)

    [enableValidationLayers] is fixed at compile time by [NDEBUG]; the
    functions that read it take it as a parameter.  What the Vulkan loader
    and GLFW answer (the available layers, the extensions GLFW needs, the
    address of a loaded function, the result of a creation call) is a
    parameter as well. *)

Definition VkResult : Type := Z.
Definition VK_SUCCESS : VkResult := 0.
Definition VK_ERROR_EXTENSION_NOT_PRESENT : VkResult := -7.

Definition VK_EXT_DEBUG_UTILS_EXTENSION_NAME : string := "VK_EXT_debug_utils".

Definition VK_DEBUG_UTILS_MESSAGE_SEVERITY_VERBOSE_BIT_EXT : Z := 1.
Definition VK_DEBUG_UTILS_MESSAGE_SEVERITY_INFO_BIT_EXT : Z := 16.
Definition VK_DEBUG_UTILS_MESSAGE_SEVERITY_WARNING_BIT_EXT : Z := 256.
Definition VK_DEBUG_UTILS_MESSAGE_SEVERITY_ERROR_BIT_EXT : Z := 4096.
Definition VK_DEBUG_UTILS_MESSAGE_TYPE_GENERAL_BIT_EXT : Z := 1.
Definition VK_DEBUG_UTILS_MESSAGE_TYPE_VALIDATION_BIT_EXT : Z := 2.
Definition VK_DEBUG_UTILS_MESSAGE_TYPE_PERFORMANCE_BIT_EXT : Z := 4.

Definition validationLayers : list string := ["VK_LAYER_KHRONOS_validation"].

Record VkLayerProperties : Type := {
  layerName : string
}.

(** The callback: what it writes to [std::cerr] and what it returns. *)
Definition debugCallback (pMessage : string) : string * VkBool32 :=
  ("Validation layer: " +:+ pMessage +:+ String (Ascii.ascii_of_nat 10) EmptyString,
   VK_FALSE).

Record VkDebugUtilsMessengerCreateInfoEXT : Type := {
  messageSeverity : Z;
  messageType : Z;
  pfnUserCallback : string → string * VkBool32
}.

Record VkInstanceCreateInfo : Type := {
  enabledExtensionCount : Z;
  ppEnabledExtensionNames : list string;
  enabledLayerCount : Z;
  ppEnabledLayerNames : list string;
  pNext : option VkDebugUtilsMessengerCreateInfoEXT
}.

(** createDebugUtilsMessengerEXT (main.cpp 43-55); [func] is what
    [vkGetInstanceProcAddr] returns, [None] for a null pointer. *)
Definition createDebugUtilsMessengerEXT
    (func : option (VkDebugUtilsMessengerCreateInfoEXT → VkResult))
    (pCreateInfo : VkDebugUtilsMessengerCreateInfoEXT) : VkResult :=
  match func with
  | Some create => create pCreateInfo
  | None => VK_ERROR_EXTENSION_NOT_PRESENT
  end.

(** checkValidationLayerSupport (main.cpp 142-164): the inner loop, which
    computes [layerFound], and the outer loop over the wanted layers. *)
Fixpoint checkValidationLayerSupport_layerFound (wanted : string)
    (availableLayers : list VkLayerProperties) : bool :=
  match availableLayers with
  | [] => false
  | layerProperties :: rest =>
      if String.eqb wanted (layerName layerProperties) then true
      else checkValidationLayerSupport_layerFound wanted rest
  end.

Fixpoint checkValidationLayerSupport_loop (layers : list string)
    (availableLayers : list VkLayerProperties) : bool :=
  match layers with
  | [] => true
  | wanted :: rest =>
      if negb (checkValidationLayerSupport_layerFound wanted availableLayers)
      then false
      else checkValidationLayerSupport_loop rest availableLayers
  end.

Definition checkValidationLayerSupport
    (availableLayers : list VkLayerProperties) : bool :=
  checkValidationLayerSupport_loop validationLayers availableLayers.

(** getRequiredExtensions (main.cpp 170-185). *)
Definition getRequiredExtensions (enableValidationLayers : bool)
    (glfwExtensions : list string) : list string :=
  let extensions := glfwExtensions in
  if enableValidationLayers
  then extensions ++ [VK_EXT_DEBUG_UTILS_EXTENSION_NAME]
  else extensions.

(** populateDebugMessengerCreateInfo (main.cpp 202-213). *)
Definition populateDebugMessengerCreateInfo : VkDebugUtilsMessengerCreateInfoEXT :=
  {| messageSeverity :=
       Z.lor (Z.lor VK_DEBUG_UTILS_MESSAGE_SEVERITY_VERBOSE_BIT_EXT
                    VK_DEBUG_UTILS_MESSAGE_SEVERITY_WARNING_BIT_EXT)
             VK_DEBUG_UTILS_MESSAGE_SEVERITY_ERROR_BIT_EXT;
     messageType :=
       Z.lor (Z.lor VK_DEBUG_UTILS_MESSAGE_TYPE_GENERAL_BIT_EXT
                    VK_DEBUG_UTILS_MESSAGE_TYPE_VALIDATION_BIT_EXT)
             VK_DEBUG_UTILS_MESSAGE_TYPE_PERFORMANCE_BIT_EXT;
     pfnUserCallback := debugCallback |}.

(** setupDebugMessenger (main.cpp 215-225). *)
Definition setupDebugMessenger (enableValidationLayers : bool)
    (func : option (VkDebugUtilsMessengerCreateInfoEXT → VkResult))
  : outcome unit :=
  if negb enableValidationLayers then Ok ()
  else
    let createInfo := populateDebugMessengerCreateInfo in
    if negb (createDebugUtilsMessengerEXT func createInfo =? VK_SUCCESS)
    then Throw "[ERROR] Failed to set up debug messenger!"
    else Ok ().

(** createInstance (main.cpp 270-308), returning the create info the
    instance was created from.  The application info, which no decision
    reads, is left out of the create info. *)
Definition createInstance (enableValidationLayers : bool)
    (availableLayers : list VkLayerProperties) (glfwExtensions : list string)
    (vkCreateInstance : VkInstanceCreateInfo → VkResult)
  : outcome VkInstanceCreateInfo :=
  if enableValidationLayers && negb (checkValidationLayerSupport availableLayers)
  then Throw "[ERROR] Validation layers requested, but not available!"
  else
    let extensions := getRequiredExtensions enableValidationLayers glfwExtensions in
    let createInfo :=
      if enableValidationLayers
      then {| enabledExtensionCount := to_uint32 (Z.of_nat (length extensions));
              ppEnabledExtensionNames := extensions;
              enabledLayerCount := to_uint32 (Z.of_nat (length validationLayers));
              ppEnabledLayerNames := validationLayers;
              pNext := Some populateDebugMessengerCreateInfo |}
      else {| enabledExtensionCount := to_uint32 (Z.of_nat (length extensions));
              ppEnabledExtensionNames := extensions;
              enabledLayerCount := 0;
              ppEnabledLayerNames := [];
              pNext := None |} in
    if negb (vkCreateInstance createInfo =? VK_SUCCESS)
    then Throw "[ERROR] Failed to create a Vulkan instance"
    else Ok createInfo.

(** ** Vocabulary of the properties *)

(** A family the scan takes for drawing, and one it takes for presenting. *)
Definition graphicsCapable (family : QueueFamily) : bool :=
  truthy (Z.land (queueFlags (properties family)) VK_QUEUE_GRAPHICS_BIT).

Definition presentCapable (family : QueueFamily) : bool :=
  truthy (presentSupport family).

(** Lowest and highest position of an element satisfying [p]. *)
Fixpoint first_match {A : Type} (p : A → bool) (l : list A) : option nat :=
  match l with
  | [] => None
  | x :: rest => if p x then Some 0%nat else S <$> first_match p rest
  end.

Fixpoint last_match {A : Type} (p : A → bool) (l : list A) : option nat :=
  match l with
  | [] => None
  | x :: rest =>
      match last_match p rest with
      | Some j => Some (S j)
      | None => if p x then Some 0%nat else None
      end
  end.

(** How many families the scan looks at: all of them, unless both a
    graphics-capable and a presentation-capable family exist; then it stops
    right after the first position by which both kinds have occurred. *)
Definition visited (families : list QueueFamily) : nat :=
  match first_match graphicsCapable families,
        first_match presentCapable families with
  | Some g, Some p => S (g `max` p)
  | _, _ => length families
  end.

(** The same count when a role may already be assigned on entry. *)
Definition visited_from (hasGraphics hasPresent : bool)
    (families : list QueueFamily) : nat :=
  match (if hasGraphics then Some 0%nat else first_match graphicsCapable families),
        (if hasPresent then Some 0%nat else first_match presentCapable families) with
  | Some g, Some p => S (g `max` p)
  | _, _ => length families
  end.

(** A value of the [uint32_t] range. *)
Definition is_uint32 (z : Z) : Prop := 0 ≤ z ≤ UINT32_MAX.

(** The three queries of [querySwapChainSupport]. *)
Definition isSwapChainQuery (call : ApiCall) : bool :=
  match call with
  | GetPhysicalDeviceSurfaceCapabilitiesKHR _
  | GetPhysicalDeviceSurfaceFormatsKHR _
  | GetPhysicalDeviceSurfacePresentModesKHR _ => true
  | _ => false
  end.

(** The pair [chooseSwapSurfaceFormat] looks for. *)
Definition preferredFormat (f : VkSurfaceFormatKHR) : Prop :=
  format f = VK_FORMAT_B8G8R8A8_SRGB
  ∧ colorSpace f = VK_COLOR_SPACE_SRGB_NONLINEAR_KHR.

(** A capability snapshot with another height of the current extent. *)
Definition with_current_height (caps : VkSurfaceCapabilitiesKHR) (h : Z)
  : VkSurfaceCapabilitiesKHR :=
  {| minImageCount := minImageCount caps;
     maxImageCount := maxImageCount caps;
     currentExtent := {| width := width (currentExtent caps); height := h |};
     minImageExtent := minImageExtent caps;
     maxImageExtent := maxImageExtent caps;
     currentTransform := currentTransform caps |}.

(** ** Concrete devices and surfaces for the examples *)

Definition swapchainExtension : VkExtensionProperties :=
  {| extensionName := VK_KHR_SWAPCHAIN_EXTENSION_NAME |}.

Definition bgraSrgb : VkSurfaceFormatKHR :=
  {| format := VK_FORMAT_B8G8R8A8_SRGB;
     colorSpace := VK_COLOR_SPACE_SRGB_NONLINEAR_KHR |}.

(** [VK_FORMAT_R8G8B8A8_UNORM] in the sRGB colour space. *)
Definition rgbaUnorm : VkSurfaceFormatKHR :=
  {| format := 37; colorSpace := VK_COLOR_SPACE_SRGB_NONLINEAR_KHR |}.

Definition graphicsOnlyFamily : QueueFamily :=
  {| properties := {| queueFlags := 1 |}; presentSupport := VK_FALSE |}.

Definition universalFamily : QueueFamily :=
  {| properties := {| queueFlags := 15 |}; presentSupport := VK_TRUE |}.

(** The surface of the extent scenario: the extent is left to the swapchain. *)
Definition freeExtentSurface : VkSurfaceCapabilitiesKHR :=
  {| minImageCount := 2;
     maxImageCount := 0;
     currentExtent := {| width := UINT32_MAX; height := UINT32_MAX |};
     minImageExtent := {| width := 1; height := 1 |};
     maxImageExtent := {| width := 4096; height := 4096 |};
     currentTransform := 1 |}.

Definition gpu (type : VkPhysicalDeviceType) (maxDim : Z)
    (families : list QueueFamily) : VkPhysicalDevice :=
  {| deviceProperties :=
       {| deviceType := type; limits := {| maxImageDimension2D := maxDim |} |};
     deviceFeatures := {| geometryShader := VK_TRUE |};
     queueFamilies := families;
     availableExtensions := [swapchainExtension];
     capabilities := freeExtentSurface;
     formats := [rgbaUnorm; bgraSrgb];
     presentModes := [VK_PRESENT_MODE_FIFO_KHR] |}.

Definition discreteGpu : VkPhysicalDevice :=
  gpu VK_PHYSICAL_DEVICE_TYPE_DISCRETE_GPU 8192 [universalFamily].

Definition integratedGpu : VkPhysicalDevice :=
  gpu VK_PHYSICAL_DEVICE_TYPE_INTEGRATED_GPU 4096 [universalFamily].

(** A discrete GPU that reports the largest [uint32_t] as its limit. *)
Definition hugeLimitGpu : VkPhysicalDevice :=
  gpu VK_PHYSICAL_DEVICE_TYPE_DISCRETE_GPU UINT32_MAX [universalFamily].

(** Family 0 draws only; family 1 draws and presents. *)
Definition twoFamilyGpu : VkPhysicalDevice :=
  gpu VK_PHYSICAL_DEVICE_TYPE_DISCRETE_GPU 8192 [graphicsOnlyFamily; universalFamily].

(** A discrete GPU none of whose families can present to the surface. *)
Definition headlessGpu : VkPhysicalDevice :=
  gpu VK_PHYSICAL_DEVICE_TYPE_DISCRETE_GPU 4096 [graphicsOnlyFamily].

(** The discrete GPU without any device extension. *)
Definition bareGpu : VkPhysicalDevice :=
  {| deviceProperties := deviceProperties discreteGpu;
     deviceFeatures := deviceFeatures discreteGpu;
     queueFamilies := queueFamilies discreteGpu;
     availableExtensions := [];
     capabilities := capabilities discreteGpu;
     formats := formats discreteGpu;
     presentModes := presentModes discreteGpu |}.

(** The application before device selection, on a given instance. *)
Definition fresh (devices : list VkPhysicalDevice) : Session :=
  {| instance := {| physicalDevices := devices |};
     physicalDevice := None;
     driverCalls := [] |}.

(** A surface whose minimum image count is the largest [uint32_t]. *)
Definition saturatedSurface : VkSurfaceCapabilitiesKHR :=
  {| minImageCount := UINT32_MAX;
     maxImageCount := 0;
     currentExtent := {| width := 800; height := 600 |};
     minImageExtent := {| width := 1; height := 1 |};
     maxImageExtent := {| width := 4096; height := 4096 |};
     currentTransform := 1 |}.

Definition imageCounts (minCount maxCount : Z) : VkSurfaceCapabilitiesKHR :=
  {| minImageCount := minCount;
     maxImageCount := maxCount;
     currentExtent := {| width := 800; height := 600 |};
     minImageExtent := {| width := 1; height := 1 |};
     maxImageExtent := {| width := 4096; height := 4096 |};
     currentTransform := 1 |}.

(** In a multimap the last entry has the greatest key. *)
Definition greatest_last {V : Type} (m : multimap V) : Prop :=
  ∀ b, last m = Some b → ∀ e, e ∈ m → e.1 ≤ b.1.

(** The candidates after the loop of [pickPhysicalDevice]: every device
    rated once, in order. *)
Definition rated (devices : list VkPhysicalDevice)
    (candidates : multimap VkPhysicalDevice) : multimap VkPhysicalDevice :=
  foldl (λ m device,
           multimap_insert (value (rateDeviceSuitability device), device) m)
        candidates devices.

(** * Properties *)

Section integers.

Lemma to_uint32_small z : 0 ≤ z ≤ UINT32_MAX → to_uint32 z = z.
Proof. unfold to_uint32, UINT32_MAX. intros. apply Z.mod_small. lia. Qed.

Lemma to_uint32_range z : 0 ≤ to_uint32 z ≤ UINT32_MAX.
Proof.
  unfold to_uint32, UINT32_MAX.
  pose proof (Z.mod_pos_bound z 4294967296). lia.
Qed.

Lemma to_int_small z : 0 ≤ z ≤ INT_MAX → to_int z = z.
Proof.
  unfold to_int, INT_MAX. intros.
  rewrite to_uint32_small by (unfold UINT32_MAX; lia).
  case_match; [done | lia].
Qed.

Lemma truthy_true b : truthy b = true ↔ b ≠ 0.
Proof. unfold truthy. destruct (Z.eqb_spec b 0); naive_solver. Qed.

End integers.

Section query_monad.

Lemma value_bind {A B} (m : Query A) (f : A → Query B) :
  value (m ≫= f) = value (f (value m)).
Proof. reflexivity. Qed.

Lemma value_ret {A} (a : A) : value (mret a) = a.
Proof. reflexivity. Qed.

Lemma issued_bind {A B} (m : Query A) (f : A → Query B) :
  issued (m ≫= f) = issued m ++ issued (f (value m)).
Proof. reflexivity. Qed.

End query_monad.

Section first_last_match.
Context {A : Type} (p : A → bool).

Lemma first_match_Some l i :
  first_match p l = Some i ↔
  (∃ x, l !! i = Some x ∧ p x = true) ∧
  (∀ j y, (j < i)%nat → l !! j = Some y → p y = false).
Proof.
  revert i. induction l as [|x l IH]; intros i; simpl.
  - split; [done | intros [[y [Hy _]] _]; done].
  - destruct (p x) eqn:Hx.
    + split.
      * intros [= <-]. split; [by exists x | lia].
      * intros [_ Hlow]. destruct i as [|i]; [done|].
        specialize (Hlow 0%nat x). simpl in Hlow. rewrite Hlow in Hx; [done | lia | done].
    + destruct i as [|i].
      * split.
        { destruct (first_match p l); done. }
        { intros [[y [[= ->] Hy]] _]. congruence. }
      * specialize (IH i). split.
        { destruct (first_match p l) as [k|] eqn:Hk; [|done].
          intros [= ->]. destruct IH as [IH _].
          destruct (IH eq_refl) as [Hex Hlow].
          split; [done|]. intros [|j] y Hj; simpl.
          { intros [= ->]. done. }
          apply Hlow. lia. }
        { intros [Hex Hlow]. destruct IH as [_ IH].
          rewrite IH; [done|]. split; [done|].
          intros j y Hj Hy. apply (Hlow (S j) y); [lia | done]. }
Qed.

Lemma first_match_None l :
  first_match p l = None ↔ ∀ x, x ∈ l → p x = false.
Proof.
  induction l as [|x l IH]; simpl.
  - split; [intros _ x Hx; by apply elem_of_nil in Hx | done].
  - destruct (p x) eqn:Hx.
    + split; [done|]. intros H. rewrite H in Hx; [done | left].
    + destruct (first_match p l).
      * split; [done|]. intros H.
        destruct IH as [_ IH]. discriminate IH. intros y Hy. apply H. by right.
      * split; [|done]. intros _ y [->|Hy]%elem_of_cons; [done|].
        by apply IH.
Qed.

Lemma last_match_Some l i :
  last_match p l = Some i ↔
  (∃ x, l !! i = Some x ∧ p x = true) ∧
  (∀ j y, (i < j)%nat → l !! j = Some y → p y = false).
Proof.
  revert i. induction l as [|x l IH]; intros i; simpl.
  - split; [done | intros [[y [Hy _]] _]; done].
  - destruct (last_match p l) as [k|] eqn:Hk.
    + destruct (IH k) as [[Hex Hup] _]; [done|]. split.
      * intros [= <-]. split; [done|].
        intros [|j] y Hj; [lia|]. simpl. apply Hup. lia.
      * intros [[y [Hy Hpy]] Hhigh]. f_equal.
        destruct i as [|i].
        { destruct Hex as [z [Hz Hpz]].
          specialize (Hhigh (S k) z). simpl in Hhigh.
          rewrite Hhigh in Hpz; [done | lia | done]. }
        { assert (Some k = Some i) as [= ->]; [|done].
          apply IH. split; [by exists y|].
          intros j z Hj Hz. apply (Hhigh (S j) z); [lia | done]. }
    + assert (∀ j y, l !! j = Some y → p y = false) as Hnone.
      { intros j y Hy. destruct (p y) eqn:Hpy; [|done].
        exfalso. clear IH.
        revert j Hy. induction l as [|z l IHl]; intros j Hy; [done|].
        simpl in Hk. destruct (last_match p l) eqn:Hl; [done|].
        destruct j as [|j]; simpl in Hy.
        - injection Hy as ->. rewrite Hpy in Hk. done.
        - by apply (IHl eq_refl j). }
      destruct (p x) eqn:Hx.
      * split.
        { intros [= <-]. split; [by exists x|].
          intros [|j] y Hj; [lia|]. simpl. apply Hnone. }
        { intros [[y [Hy Hpy]] _]. destruct i as [|i]; [done|].
          simpl in Hy. rewrite (Hnone _ _ Hy) in Hpy. done. }
      * split; [done|].
        intros [[y [Hy Hpy]] _]. destruct i as [|i]; simpl in Hy.
        { injection Hy as ->. congruence. }
        { rewrite (Hnone _ _ Hy) in Hpy. done. }
Qed.

Lemma first_match_is_Some l :
  is_Some (first_match p l) ↔ ∃ x, x ∈ l ∧ p x = true.
Proof.
  split.
  - intros [i [[x [Hx Hpx]] _]%first_match_Some].
    exists x. split; [by eapply list_elem_of_lookup_2 | done].
  - intros [x [Hx Hpx]]. destruct (first_match p l) eqn:E; [done|].
    rewrite (proj1 (first_match_None l) E x Hx) in Hpx. done.
Qed.

Lemma last_match_is_Some l :
  is_Some (last_match p l) ↔ ∃ x, x ∈ l ∧ p x = true.
Proof.
  induction l as [|y l IH]; simpl.
  - split; [by intros [? ?] | intros [x [Hx _]]; by apply elem_of_nil in Hx].
  - destruct (last_match p l) as [j|].
    + split; [|done]. intros _. destruct IH as [IH _].
      destruct IH as [x [Hx Hpx]]; [done|]. exists x. split; [by right | done].
    + destruct (p y) eqn:Hy.
      * split; [|done]. intros _. exists y. split; [left | done].
      * split; [by intros [? ?]|]. intros [x [[->|Hx]%elem_of_cons Hpx]].
        { congruence. }
        { apply IH. by exists x. }
Qed.

End first_last_match.

Section findQueueFamilies_scan.

Lemma isComplete_spec indices :
  isComplete indices = true ↔
  is_Some (graphicsFamily indices) ∧ is_Some (presentFamily indices).
Proof.
  unfold isComplete. rewrite andb_true_iff, !bool_decide_eq_true. done.
Qed.

Lemma visited_from_cons hasG hasP x rest :
  hasG && hasP = false →
  visited_from hasG hasP (x :: rest) =
    if (hasG || graphicsCapable x) && (hasP || presentCapable x)
    then 1%nat
    else S (visited_from (hasG || graphicsCapable x)
                         (hasP || presentCapable x) rest).
Proof.
  unfold visited_from. simpl.
  destruct hasG, hasP, (graphicsCapable x), (presentCapable x); simpl;
    try done; intros _;
    destruct (first_match graphicsCapable rest),
             (first_match presentCapable rest); simpl; try done; f_equal; lia.
Qed.

Lemma visited_from_le hasG hasP l :
  hasG && hasP = false → (visited_from hasG hasP l ≤ length l)%nat.
Proof.
  revert hasG hasP. induction l as [|x l IH]; intros hasG hasP Hinc.
  - unfold visited_from. simpl. by destruct hasG, hasP.
  - rewrite visited_from_cons by done.
    destruct ((hasG || graphicsCapable x) && (hasP || presentCapable x)) eqn:E;
      simpl; [lia|]. specialize (IH _ _ E). lia.
Qed.

Lemma visited_from_start l : visited_from false false l = visited l.
Proof. reflexivity. Qed.

Context (device : VkPhysicalDevice).
Hypothesis count_fits_int : Z.of_nat (length (queueFamilies device)) ≤ INT_MAX.

Lemma findQueueFamilies_loop_spec suffix : ∀ pre indices,
  queueFamilies device = pre ++ suffix →
  isComplete indices = false →
  let n := length pre in
  let seen :=
    take (visited_from (bool_decide (is_Some (graphicsFamily indices)))
                       (bool_decide (is_Some (presentFamily indices))) suffix)
         suffix in
  let scan :=
    findQueueFamilies_loop device (properties <$> suffix) (Z.of_nat n) indices in
  value scan =
    {| graphicsFamily :=
         match last_match graphicsCapable seen with
         | Some j => Some (Z.of_nat (n + j))
         | None => graphicsFamily indices
         end;
       presentFamily :=
         match last_match presentCapable seen with
         | Some j => Some (Z.of_nat (n + j))
         | None => presentFamily indices
         end |}
  ∧ issued scan =
      (λ i, GetPhysicalDeviceSurfaceSupportKHR device (Z.of_nat i))
        <$> seq n (length seen).
Proof.
  induction suffix as [|x rest IH]; intros pre indices Hsplit Hinc; simpl.
  - rewrite take_nil. simpl. by destruct indices.
  - assert (to_uint32 (Z.of_nat (length pre)) = Z.of_nat (length pre)) as ->.
    { apply to_uint32_small. rewrite Hsplit, length_app in count_fits_int.
      simpl in count_fits_int. unfold INT_MAX, UINT32_MAX in *. lia. }
    rewrite Nat2Z.id.
    assert (queueFamilies device !! length pre = Some x) as ->.
    { rewrite Hsplit. by apply list_lookup_middle. }
    simpl.
    change (truthy (Z.land (queueFlags (properties x)) VK_QUEUE_GRAPHICS_BIT))
      with (graphicsCapable x).
    change (truthy (presentSupport x)) with (presentCapable x).
    rewrite visited_from_cons by exact Hinc.
    specialize (IH (pre ++ [x])).
    rewrite length_app in IH. simpl in IH.
    replace (Z.of_nat (length pre + 1)) with (Z.of_nat (length pre) + 1) in IH by lia.
    destruct indices as [g0 p0].
    unfold isComplete in Hinc. simpl in Hinc |- *.
    destruct (graphicsCapable x) eqn:HG, (presentCapable x) eqn:HP,
             g0 as [g0|], p0 as [p0|]; simpl in Hinc |- *; try done;
      try (rewrite HG, ?HP; simpl;
           split; [repeat f_equal; lia | done]).
    all: lazymatch goal with
         | |- context [findQueueFamilies_loop _ _ _ ?ix] =>
             destruct (IH ix) as [IHv IHc];
             [by rewrite Hsplit, <- app_assoc | done |]
         end.
    all: simpl in IHv, IHc;
      change (list_fmap _ _ properties rest) with (properties <$> rest);
      rewrite IHv, IHc; clear IHv IHc.
    all: replace (length pre + 1)%nat with (S (length pre)) by lia.
    all: split; [|done].
    all: repeat match goal with
                | |- context [last_match ?p ?l] => destruct (last_match p l)
                end; rewrite ?HG, ?HP;
         f_equal; first [done | f_equal; lia].
Qed.

End findQueueFamilies_scan.

Section findQueueFamilies_result.

Lemma visited_le families : (visited families ≤ length families)%nat.
Proof. rewrite <- visited_from_start. by apply visited_from_le. Qed.

(** The scan stops early only when both kinds of family have occurred, and
    then right after the later of their first occurrences. *)
Lemma visited_stop families :
  (visited families < length families)%nat →
  ∃ g p, first_match graphicsCapable families = Some g
         ∧ first_match presentCapable families = Some p
         ∧ visited families = S (g `max` p).
Proof.
  unfold visited.
  destruct (first_match graphicsCapable families) as [g|],
           (first_match presentCapable families) as [p|];
    intros Hlt; try lia.
  by exists g, p.
Qed.

(** The roles come out complete exactly when the device has a family that
    draws and a family that presents. *)
Lemma findQueueFamilies_complete_iff device :
  Z.of_nat (length (queueFamilies device)) ≤ INT_MAX →
  isComplete (value (findQueueFamilies device)) = true ↔
  (∃ family, family ∈ queueFamilies device ∧ graphicsCapable family = true)
  ∧ (∃ family, family ∈ queueFamilies device ∧ presentCapable family = true).
Proof.
  intros Hfit.
  destruct (findQueueFamilies_loop_spec device Hfit (queueFamilies device) []
              {| graphicsFamily := None; presentFamily := None |})
    as [Hv _]; [done | done |].
  simpl in Hv. change (Z.of_nat 0) with 0 in Hv.
  rewrite visited_from_start in Hv.
  unfold findQueueFamilies. rewrite !value_bind.
  change (value (vkGetPhysicalDeviceQueueFamilyProperties device))
    with (properties <$> queueFamilies device).
  rewrite Hv, isComplete_spec. cbn [graphicsFamily presentFamily].
  rewrite <- !first_match_is_Some.
  set (families := queueFamilies device).
  assert (∀ p, is_Some (match last_match p (take (visited families) families) with
                        | Some j => Some (Z.of_nat j)
                        | None => None
                        end)
               ↔ is_Some (last_match p (take (visited families) families)))
    as Hsome.
  { intros p. destruct (last_match p _); [by split | split; by intros [? ?]]. }
  rewrite !Hsome, !last_match_is_Some. clear Hsome Hv.
  split.
  - intros [[x [Hx Hpx]] [y [Hy Hpy]]].
    split; apply first_match_is_Some; [exists x | exists y];
      (split; [by eapply subseteq_take | done]).
  - intros [[g Hg] [q Hq]]. unfold visited. rewrite Hg, Hq.
    apply first_match_Some in Hg as [[x [Hx Hpx]] _].
    apply first_match_Some in Hq as [[y [Hy Hpy]] _].
    split; [exists x | exists y]; (split; [|done]); apply elem_of_take.
    + exists g. split; [done | lia].
    + exists q. split; [done | lia].
Qed.

End findQueueFamilies_result.

(** C4 (as amended): [findQueueFamilies] looks at the families in index
    order and stops right after the first index by which both a
    graphics-capable and a presentation-capable family have occurred, or at
    the end of the list ([visited]); the surface is queried once for each
    family looked at and for no other.  The graphics role is the HIGHEST
    index looked at whose flags include graphics capability, and the present
    role, independently, the highest index looked at that can present: a
    later match overwrites an earlier one.  A role stays empty when no
    family looked at matches. *)
Theorem findQueueFamilies_records_last_match_seen (device : VkPhysicalDevice) :
  Z.of_nat (length (queueFamilies device)) ≤ INT_MAX →
  let families := queueFamilies device in
  let seen := take (visited families) families in
  value (findQueueFamilies device) =
    {| graphicsFamily := Z.of_nat <$> last_match graphicsCapable seen;
       presentFamily := Z.of_nat <$> last_match presentCapable seen |}
  ∧ issued (findQueueFamilies device) =
      [GetPhysicalDeviceQueueFamilyProperties device;
       GetPhysicalDeviceQueueFamilyProperties device]
      ++ ((λ i, GetPhysicalDeviceSurfaceSupportKHR device (Z.of_nat i))
            <$> seq 0 (visited families)).
Proof.
  intros Hfit families seen.
  destruct (findQueueFamilies_loop_spec device Hfit (queueFamilies device) []
              {| graphicsFamily := None; presentFamily := None |})
    as [Hv Hc]; [done | done |].
  simpl in Hv, Hc. change (Z.of_nat 0) with 0 in Hv, Hc.
  rewrite visited_from_start in Hv, Hc.
  unfold findQueueFamilies. rewrite !value_bind, !issued_bind.
  change (value (vkGetPhysicalDeviceQueueFamilyProperties device))
    with (properties <$> queueFamilies device).
  rewrite Hv, Hc. split.
  - subst seen families.
    destruct (last_match graphicsCapable _), (last_match presentCapable _); done.
  - rewrite length_take, Nat.min_l by apply visited_le. done.
Qed.

Lemma findQueueFamilies_records_last_match_seen_witness :
  value (findQueueFamilies twoFamilyGpu) =
    {| graphicsFamily := Some 1; presentFamily := Some 1 |}
  ∧ issued (findQueueFamilies twoFamilyGpu) =
      [GetPhysicalDeviceQueueFamilyProperties twoFamilyGpu;
       GetPhysicalDeviceQueueFamilyProperties twoFamilyGpu;
       GetPhysicalDeviceSurfaceSupportKHR twoFamilyGpu 0;
       GetPhysicalDeviceSurfaceSupportKHR twoFamilyGpu 1].
Proof.
  apply (findQueueFamilies_records_last_match_seen twoFamilyGpu).
  vm_compute. discriminate.
Defined.

(** C4 (as stated) fails: on a device whose family 0 draws only and whose
    family 1 draws and presents, the graphics role is 1 although the lowest
    graphics-capable index is 0. *)
Lemma findQueueFamilies_not_first_match :
  graphicsFamily (value (findQueueFamilies twoFamilyGpu)) = Some 1
  ∧ first_match graphicsCapable (queueFamilies twoFamilyGpu) = Some 0%nat
  ∧ graphicsFamily (value (findQueueFamilies twoFamilyGpu))
      ≠ Z.of_nat <$> first_match graphicsCapable (queueFamilies twoFamilyGpu).
Proof. vm_compute. split_and!; [done | done | discriminate]. Qed.

Section device_checks.

(** Erasing every available name in turn is a set difference. *)
Lemma erase_all (available : list VkExtensionProperties) (required : gset string) :
  foldl (λ (required : gset string) extension,
           required ∖ {[extensionName extension]}) required available
  = required ∖ list_to_set (extensionName <$> available).
Proof.
  revert required. induction available as [|e l IH]; intros required; simpl.
  - set_solver.
  - rewrite IH. set_solver.
Qed.

(** The emptiness test of the working set is the containment of the
    required extensions in the available ones. *)
Lemma checkDeviceExtensionSupport_spec device :
  value (checkDeviceExtensionSupport device) = true ↔
  ∀ name, name ∈ deviceExtensions →
          name ∈ extensionName <$> availableExtensions device.
Proof.
  unfold checkDeviceExtensionSupport. rewrite !value_bind, value_ret.
  change (value (vkEnumerateDeviceExtensionProperties device))
    with (availableExtensions device).
  rewrite bool_decide_eq_true, erase_all.
  split.
  - intros Hempty name Hname.
    destruct (decide (name ∈ extensionName <$> availableExtensions device));
      [done|].
    assert (name ∈ (∅ : gset string)) as Habs; [|set_solver].
    rewrite <- Hempty. set_solver.
  - intros Hall. apply set_eq. intros name. split; [|set_solver].
    intros [Hreq Hnot]%elem_of_difference.
    exfalso. apply Hnot. apply elem_of_list_to_set, Hall.
    by apply elem_of_list_to_set in Hreq.
Qed.

Lemma truthy_length {A} (l : list A) : truthy (Z.of_nat (length l)) = negb (vector_empty l).
Proof.
  destruct l as [|a l]; [reflexivity|]. unfold truthy.
  destruct (Z.eqb_spec (Z.of_nat (length (a :: l))) 0) as [H|H]; [|done].
  simpl in H. lia.
Qed.

Lemma querySwapChainSupport_value device :
  value (querySwapChainSupport device) =
    {| details_capabilities := capabilities device;
       details_formats := formats device;
       details_presentModes := presentModes device |}.
Proof.
  unfold querySwapChainSupport, vkGetPhysicalDeviceSurfaceFormatsKHR,
    vkGetPhysicalDeviceSurfacePresentModesKHR.
  rewrite !value_bind. cbn [value]. rewrite !truthy_length.
  destruct (formats device), (presentModes device); reflexivity.
Qed.

Lemma checkAdequateSwapChain_value device :
  value (checkAdequateSwapChain device) =
    negb (vector_empty (formats device)) && negb (vector_empty (presentModes device)).
Proof.
  unfold checkAdequateSwapChain. rewrite value_bind, querySwapChainSupport_value.
  done.
Qed.

Lemma checkAdequateSwapChain_spec device :
  value (checkAdequateSwapChain device) = true ↔
  formats device ≠ [] ∧ presentModes device ≠ [].
Proof.
  rewrite checkAdequateSwapChain_value.
  destruct (formats device), (presentModes device); simpl; naive_solver.
Qed.

(** Which functions query the swapchain support of the surface. *)
Lemma checkAdequateSwapChain_queries device :
  existsb isSwapChainQuery (issued (checkAdequateSwapChain device)) = true.
Proof. reflexivity. Qed.

Lemma findQueueFamilies_loop_no_swapchain_query device families :
  ∀ i indices,
    existsb isSwapChainQuery
      (issued (findQueueFamilies_loop device families i indices)) = false.
Proof.
  induction families as [|f rest IH]; intros i indices; [done|].
  simpl. destruct (isComplete _); [done | apply IH].
Qed.

Lemma findQueueFamilies_no_swapchain_query device :
  existsb isSwapChainQuery (issued (findQueueFamilies device)) = false.
Proof.
  unfold findQueueFamilies. rewrite !issued_bind, !existsb_app.
  by rewrite findQueueFamilies_loop_no_swapchain_query.
Qed.

Lemma checkDeviceExtensionSupport_no_swapchain_query device :
  existsb isSwapChainQuery (issued (checkDeviceExtensionSupport device)) = false.
Proof. reflexivity. Qed.

End device_checks.

Section suitability.

Lemma vector_empty_false {A} (l : list A) : negb (vector_empty l) = true ↔ l ≠ [].
Proof. destruct l; simpl; naive_solver. Qed.

Lemma isDeviceSuitable_value device :
  value (isDeviceSuitable device) =
    bool_decide (deviceType (deviceProperties device)
                 = VK_PHYSICAL_DEVICE_TYPE_DISCRETE_GPU)
    && truthy (geometryShader (deviceFeatures device))
    && isComplete (value (findQueueFamilies device))
    && value (checkDeviceExtensionSupport device)
    && (value (checkDeviceExtensionSupport device)
        && value (checkAdequateSwapChain device)).
Proof.
  unfold isDeviceSuitable. rewrite !value_bind, value_ret.
  by destruct (value (checkDeviceExtensionSupport device)).
Qed.

Lemma isDeviceSuitable_queries device :
  existsb isSwapChainQuery (issued (isDeviceSuitable device))
  = value (checkDeviceExtensionSupport device).
Proof.
  unfold isDeviceSuitable. rewrite !issued_bind, !existsb_app.
  rewrite findQueueFamilies_no_swapchain_query,
    checkDeviceExtensionSupport_no_swapchain_query.
  destruct (value (checkDeviceExtensionSupport device)).
  - rewrite checkAdequateSwapChain_queries. reflexivity.
  - reflexivity.
Qed.

(** The score of any device: the sum is reduced modulo 2^32 and read as an
    [int]. *)
Lemma rateDeviceSuitability_value device :
  value (rateDeviceSuitability device) =
    if negb (truthy (geometryShader (deviceFeatures device)))
       || negb (value (checkDeviceExtensionSupport device))
       || negb (value (checkAdequateSwapChain device))
    then 0
    else
      to_int (to_uint32
        (to_uint32
           ((if bool_decide (deviceType (deviceProperties device)
                             = VK_PHYSICAL_DEVICE_TYPE_DISCRETE_GPU)
             then 0 + 1000 else 0)
            + (if isComplete (value (findQueueFamilies device)) then 10 else 0))
         + maxImageDimension2D (limits (deviceProperties device)))).
Proof.
  unfold rateDeviceSuitability. rewrite !value_bind.
  change (value (vkGetPhysicalDeviceFeatures device)) with (deviceFeatures device).
  change (value (vkGetPhysicalDeviceProperties device))
    with (deviceProperties device).
  destruct (truthy (geometryShader (deviceFeatures device))),
           (value (checkDeviceExtensionSupport device));
    cbn [negb orb]; try reflexivity.
  rewrite value_bind.
  destruct (value (checkAdequateSwapChain device)); cbn [negb]; [|reflexivity].
  rewrite value_ret.
  destruct (bool_decide _), (isComplete _); reflexivity.
Qed.

End suitability.

(** C5: [isDeviceSuitable] holds exactly of a discrete GPU with the geometry
    shader feature, complete queue roles, every required extension and a
    non-empty format list and present-mode list; the swapchain support of
    the surface is queried exactly when the extensions are supported, and
    without them the device is unsuitable. *)
Theorem isDeviceSuitable_iff_all_requirements (device : VkPhysicalDevice) :
  let extensionsSupported :=
    ∀ name, name ∈ deviceExtensions →
            name ∈ extensionName <$> availableExtensions device in
  (value (isDeviceSuitable device) = true ↔
     deviceType (deviceProperties device) = VK_PHYSICAL_DEVICE_TYPE_DISCRETE_GPU
     ∧ geometryShader (deviceFeatures device) ≠ 0
     ∧ isComplete (value (findQueueFamilies device)) = true
     ∧ extensionsSupported
     ∧ (formats device ≠ [] ∧ presentModes device ≠ []))
  ∧ (existsb isSwapChainQuery (issued (isDeviceSuitable device)) = true ↔
       extensionsSupported)
  ∧ (¬ extensionsSupported → value (isDeviceSuitable device) = false).
Proof.
  intros extensionsSupported. subst extensionsSupported.
  rewrite isDeviceSuitable_value, isDeviceSuitable_queries.
  rewrite <- checkDeviceExtensionSupport_spec, <- checkAdequateSwapChain_spec.
  rewrite !andb_true_iff, bool_decide_eq_true, truthy_true.
  split_and!; [naive_solver | done |].
  intros Hno. destruct (value (checkDeviceExtensionSupport device)); [done|].
  by rewrite !andb_false_r.
Qed.

Lemma isDeviceSuitable_iff_all_requirements_witness :
  value (isDeviceSuitable discreteGpu) = true
  ∧ value (isDeviceSuitable integratedGpu) = false.
Proof.
  split.
  - apply (proj1 (isDeviceSuitable_iff_all_requirements discreteGpu)).
    split_and!; [done | done | done | | done | done].
    intros name ->%list_elem_of_singleton. apply list_elem_of_singleton. done.
  - destruct (value (isDeviceSuitable integratedGpu)) eqn:E; [|done].
    apply (proj1 (isDeviceSuitable_iff_all_requirements integratedGpu)) in E.
    destruct E as [E _]. discriminate E.
Defined.

(** C1 (as amended): unless vetoed, and provided the sum does not exceed the
    largest [int], the score is 0, plus 1000 for a discrete GPU, plus 10 for
    complete queue roles, plus [maxImageDimension2D].  For every device the
    score is 0 when the geometry shader is absent, or a required extension
    is unsupported, or (the extensions being supported) the format list or
    the present-mode list of the surface is empty. *)
Theorem rateDeviceSuitability_score (device : VkPhysicalDevice) :
  let discrete :=
    bool_decide (deviceType (deviceProperties device)
                 = VK_PHYSICAL_DEVICE_TYPE_DISCRETE_GPU) in
  let complete := isComplete (value (findQueueFamilies device)) in
  let maxDim := maxImageDimension2D (limits (deviceProperties device)) in
  let extensionsSupported :=
    ∀ name, name ∈ deviceExtensions →
            name ∈ extensionName <$> availableExtensions device in
  let vetoed :=
    geometryShader (deviceFeatures device) = 0
    ∨ ¬ extensionsSupported
    ∨ (extensionsSupported ∧ (formats device = [] ∨ presentModes device = [])) in
  let sum := 0 + (if discrete then 1000 else 0) + (if complete then 10 else 0)
             + maxDim in
  (vetoed → value (rateDeviceSuitability device) = 0)
  ∧ (¬ vetoed → 0 ≤ maxDim → sum ≤ INT_MAX →
     value (rateDeviceSuitability device) = sum).
Proof.
  intros discrete complete maxDim extensionsSupported vetoed sum.
  rewrite rateDeviceSuitability_value.
  assert (vetoed ↔
          negb (truthy (geometryShader (deviceFeatures device)))
          || negb (value (checkDeviceExtensionSupport device))
          || negb (value (checkAdequateSwapChain device)) = true) as Hveto.
  { subst vetoed extensionsSupported.
    rewrite <- checkDeviceExtensionSupport_spec.
    rewrite !orb_true_iff, !negb_true_iff.
    pose proof (truthy_true (geometryShader (deviceFeatures device))) as Hg.
    pose proof (checkAdequateSwapChain_spec device) as Ha.
    destruct (truthy _), (value (checkDeviceExtensionSupport device)),
             (value (checkAdequateSwapChain device));
      destruct (decide (geometryShader (deviceFeatures device) = 0)),
               (formats device), (presentModes device); naive_solver. }
  split.
  - intros Hv. apply Hveto in Hv. by rewrite Hv.
  - intros Hv Hdim Hsum.
    destruct (_ || _ || _) eqn:E; [by destruct Hv; apply Hveto|].
    fold discrete complete maxDim.
    assert (0 ≤ (if discrete then 0 + 1000 else 0) + (if complete then 10 else 0)
            ≤ 1010) as Hbonus by (destruct discrete, complete; lia).
    subst sum. unfold INT_MAX in Hsum.
    rewrite (to_uint32_small (_ + (if complete then _ else _)))
      by (unfold UINT32_MAX; lia).
    rewrite to_uint32_small by (unfold UINT32_MAX; destruct discrete, complete; lia).
    rewrite to_int_small by (unfold INT_MAX; destruct discrete, complete; lia).
    destruct discrete, complete; lia.
Qed.

Lemma rateDeviceSuitability_score_witness :
  value (rateDeviceSuitability discreteGpu) = 0 + 1000 + 10 + 8192
  ∧ value (rateDeviceSuitability bareGpu) = 0.
Proof.
  split.
  - apply (proj2 (rateDeviceSuitability_score discreteGpu)).
    + intros [Hg | [Hx | [_ [Hf | Hp]]]]; [done | | done | done].
      apply Hx. intros name ->%list_elem_of_singleton.
      apply list_elem_of_singleton. done.
    + done.
    + done.
  - apply (proj1 (rateDeviceSuitability_score bareGpu)).
    right. left. intros Hall.
    specialize (Hall VK_KHR_SWAPCHAIN_EXTENSION_NAME).
    apply elem_of_nil in Hall; [done | left].
Defined.

(** C1 (as stated) fails: for a discrete GPU with complete queue roles that
    reports [maxImageDimension2D = 0xFFFFFFFF] and is not vetoed, the score
    is 1009, not 1000 + 10 + 4294967295. *)
Lemma rateDeviceSuitability_sum_wraps :
  value (rateDeviceSuitability hugeLimitGpu) = 1009
  ∧ deviceType (deviceProperties hugeLimitGpu) = VK_PHYSICAL_DEVICE_TYPE_DISCRETE_GPU
  ∧ isComplete (value (findQueueFamilies hugeLimitGpu)) = true
  ∧ maxImageDimension2D (limits (deviceProperties hugeLimitGpu)) = 4294967295
  ∧ value (rateDeviceSuitability hugeLimitGpu) ≠ 0 + 1000 + 10 + 4294967295.
Proof. vm_compute. split_and!; done. Qed.

Section multimap_facts.
Context {V : Type}.
Implicit Types (m : multimap V) (e b : Z * V).

Lemma multimap_insert_elem e e' m :
  e' ∈ multimap_insert e m ↔ e' = e ∨ e' ∈ m.
Proof.
  induction m as [|x m IH]; simpl.
  - rewrite list_elem_of_singleton. split; [by left | intros [|H]; [done|]].
    by apply elem_of_nil in H.
  - destruct (e.1 <? x.1).
    + by rewrite elem_of_cons.
    + rewrite !elem_of_cons, IH. naive_solver.
Qed.

(** An entry with a smaller key than the last entry goes before it. *)
Lemma multimap_insert_below e b m :
  last m = Some b → e.1 < b.1 → last (multimap_insert e m) = Some b.
Proof.
  induction m as [|x m IH]; [done|]. intros Hlast Hlt. simpl.
  destruct (Z.ltb_spec e.1 x.1).
  - by rewrite !last_cons_cons.
  - destruct m as [|y m].
    + simpl in Hlast. injection Hlast as ->. lia.
    + rewrite last_cons_cons in Hlast. specialize (IH Hlast Hlt).
      simpl in IH |- *. destruct (e.1 <? y.1); by rewrite last_cons_cons.
Qed.

(** An entry whose key no entry exceeds goes last. *)
Lemma multimap_insert_top e m :
  (∀ e', e' ∈ m → e'.1 ≤ e.1) → multimap_insert e m = m ++ [e].
Proof.
  induction m as [|x m IH]; [done|]. intros Hle. simpl.
  destruct (Z.ltb_spec e.1 x.1) as [Hlt|_].
  - assert (x.1 ≤ e.1) by (apply Hle, elem_of_cons; by left). lia.
  - rewrite IH; [done|]. intros e' He'. apply Hle. by right.
Qed.

Lemma greatest_last_nil : greatest_last ([] : multimap V).
Proof. intros b Hb. done. Qed.

Lemma greatest_last_insert e m :
  greatest_last m → greatest_last (multimap_insert e m).
Proof.
  intros Hm b Hb e' He'. apply multimap_insert_elem in He'.
  destruct (last m) as [b0|] eqn:Hlast.
  - destruct (Z.lt_ge_cases e.1 b0.1) as [Hlt|Hge].
    + rewrite (multimap_insert_below e b0 m Hlast Hlt) in Hb.
      injection Hb as <-. destruct He' as [->|He']; [lia | by apply Hm].
    + rewrite multimap_insert_top in Hb.
      * rewrite last_snoc in Hb. injection Hb as <-.
        destruct He' as [->|He']; [lia|].
        specialize (Hm b0 Hlast e' He'). lia.
      * intros x Hx. specialize (Hm b0 Hlast x Hx). lia.
  - apply last_None in Hlast. subst m. simpl in Hb. injection Hb as <-.
    destruct He' as [->|He']; [lia | by apply elem_of_nil in He'].
Qed.

Lemma multimap_insert_last_is_Some e m : is_Some (last (multimap_insert e m)).
Proof.
  destruct (last (multimap_insert e m)) eqn:E; [done|].
  apply last_None in E.
  assert (e ∈ multimap_insert e m) as He by (apply multimap_insert_elem; by left).
  rewrite E in He. by apply elem_of_nil in He.
Qed.

End multimap_facts.

Section selection.

Lemma run_bind {A B} (m : App A) (f : A → App B) s :
  run (m ≫= f) s =
    match run m s with
    | (Ok a, s') => run (f a) s'
    | (Throw what, s') => (Throw what, s')
    | (Undefined, s') => (Undefined, s')
    end.
Proof. reflexivity. Qed.

Lemma pickPhysicalDevice_loop_run devices : ∀ candidates s,
  run (pickPhysicalDevice_loop devices candidates) s =
    (Ok (rated devices candidates),
     {| instance := instance s;
        physicalDevice := physicalDevice s;
        driverCalls :=
          driverCalls s
          ++ (devices ≫= λ device, issued (rateDeviceSuitability device)) |}).
Proof.
  induction devices as [|d rest IH]; intros candidates s.
  - simpl. rewrite app_nil_r. by destruct s.
  - cbn [pickPhysicalDevice_loop]. rewrite run_bind. cbn [query run].
    rewrite IH. cbn [instance physicalDevice driverCalls rated foldl].
    by rewrite <- app_assoc.
Qed.

Lemma rated_elem devices : ∀ candidates e,
  e ∈ rated devices candidates ↔
  e ∈ candidates
  ∨ ∃ device, device ∈ devices
              ∧ e = (value (rateDeviceSuitability device), device).
Proof.
  induction devices as [|d rest IH]; intros candidates e; simpl.
  - split; [by left | intros [|[d [Hd _]]]; [done|]].
    by apply elem_of_nil in Hd.
  - unfold rated in IH |- *. simpl. rewrite IH, multimap_insert_elem.
    setoid_rewrite elem_of_cons. naive_solver.
Qed.

Lemma rated_greatest_last devices : ∀ candidates,
  greatest_last candidates → greatest_last (rated devices candidates).
Proof.
  induction devices as [|d rest IH]; intros candidates Hc; [done|].
  apply IH. by apply greatest_last_insert.
Qed.

Lemma rated_last_is_Some devices candidates :
  devices ≠ [] → is_Some (last (rated devices candidates)).
Proof.
  destruct (last (rated devices candidates)) eqn:E; [done|].
  intros Hne. apply last_None in E. destruct devices as [|d rest]; [done|].
  assert ((value (rateDeviceSuitability d), d) ∈ rated (d :: rest) candidates)
    as Hin.
  { apply rated_elem. right. exists d. split; [left | done]. }
  rewrite E in Hin. by apply elem_of_nil in Hin.
Qed.

(** The entry [rbegin] points at after the loop. *)
Lemma rated_best devices :
  devices ≠ [] →
  ∃ best, last (rated devices []) = Some (value (rateDeviceSuitability best), best)
          ∧ best ∈ devices
          ∧ ∀ device, device ∈ devices →
              value (rateDeviceSuitability device)
              ≤ value (rateDeviceSuitability best).
Proof.
  intros Hne. destruct (rated_last_is_Some devices [] Hne) as [b Hb].
  assert (b ∈ rated devices []) as Hin.
  { apply last_Some in Hb as [l ->]. apply elem_of_app. right. left. }
  apply rated_elem in Hin as [Hin | [best [Hbest ->]]];
    [by apply elem_of_nil in Hin|].
  exists best. split_and!; [done | done |].
  intros device Hdevice.
  apply (rated_greatest_last devices [] greatest_last_nil _ Hb
           (value (rateDeviceSuitability device), device)).
  apply rated_elem. right. by exists device.
Qed.

Lemma pickPhysicalDevice_run s :
  run pickPhysicalDevice s =
    let devices := physicalDevices (instance s) in
    let enumerated :=
      {| instance := instance s;
         physicalDevice := physicalDevice s;
         driverCalls := driverCalls s ++ [EnumeratePhysicalDevices] |} in
    match devices with
    | [] => (Throw "[ERROR] Failed to find GPUs with Vulkan support!", enumerated)
    | _ :: _ =>
        let rating :=
          {| instance := instance s;
             physicalDevice := physicalDevice s;
             driverCalls :=
               ((driverCalls s ++ [EnumeratePhysicalDevices])
                  ++ [EnumeratePhysicalDevices])
               ++ (devices ≫= λ device, issued (rateDeviceSuitability device)) |} in
        match last (rated devices []) with
        | None => (Undefined, rating)
        | Some best =>
            if 0 <? best.1
            then (Ok (),
                  {| instance := instance s;
                     physicalDevice := Some best.2;
                     driverCalls := driverCalls rating |})
            else (Throw "[ERROR] Failed to find a suitable GPU!", rating)
        end
    end.
Proof.
  unfold pickPhysicalDevice. rewrite run_bind. cbn [get_instance run].
  rewrite run_bind. cbn [query run value issued vkEnumeratePhysicalDevices].
  destruct (physicalDevices (instance s)) as [|d rest] eqn:Hdevices;
    [reflexivity|].
  replace (Z.of_nat (length (d :: rest)) =? 0) with false
    by (symmetry; apply Z.eqb_neq; simpl; lia).
  rewrite run_bind. cbn [query run value issued vkEnumeratePhysicalDevices].
  cbn [instance]. rewrite Hdevices, run_bind, pickPhysicalDevice_loop_run.
  cbn [instance physicalDevice driverCalls]. unfold multimap_rbegin.
  destruct (last (rated (d :: rest) [])) as [best|]; [|reflexivity].
  destruct (0 <? best.1); reflexivity.
Qed.

End selection.

(** C2: on an empty device list [pickPhysicalDevice] throws and selects
    nothing; when some enumerated device has a positive score it selects an
    enumerated device whose score is positive and is the greatest of all
    enumerated devices; when the list is non-empty and no device scores
    above zero it throws and selects nothing. *)
Theorem pickPhysicalDevice_selects_max (s : Session) :
  let devices := physicalDevices (instance s) in
  let score device := value (rateDeviceSuitability device) in
  (devices = [] →
   ∃ s', run pickPhysicalDevice s
         = (Throw "[ERROR] Failed to find GPUs with Vulkan support!", s')
         ∧ physicalDevice s' = physicalDevice s)
  ∧ ((∃ device, device ∈ devices ∧ 0 < score device) →
     ∃ best s', run pickPhysicalDevice s = (Ok (), s')
                ∧ physicalDevice s' = Some best
                ∧ best ∈ devices
                ∧ 0 < score best
                ∧ ∀ device, device ∈ devices → score device ≤ score best)
  ∧ (devices ≠ [] → (∀ device, device ∈ devices → score device ≤ 0) →
     ∃ s', run pickPhysicalDevice s
           = (Throw "[ERROR] Failed to find a suitable GPU!", s')
           ∧ physicalDevice s' = physicalDevice s).
Proof.
  intros devices score. rewrite pickPhysicalDevice_run. fold devices.
  cbv zeta. split_and!.
  - intros ->. eexists. split; reflexivity.
  - intros [device [Hin Hpos]].
    assert (devices ≠ []) as Hne by (intros E; rewrite E in Hin; by apply elem_of_nil in Hin).
    destruct (rated_best devices Hne) as [best [Hlast [Hbest Hmax]]].
    destruct devices as [|d rest]; [done|]. rewrite Hlast. cbn [fst snd].
    assert (0 < score best) as Hbestpos by (specialize (Hmax device Hin); subst score; simpl in *; lia).
    replace (0 <? value (rateDeviceSuitability best)) with true
      by (symmetry; by apply Z.ltb_lt).
    exists best. eexists. split_and!; [reflexivity | reflexivity | done | done | done].
  - intros Hne Hall.
    destruct (rated_best devices Hne) as [best [Hlast [Hbest Hmax]]].
    destruct devices as [|d rest]; [done|]. rewrite Hlast. cbn [fst snd].
    replace (0 <? value (rateDeviceSuitability best)) with false
      by (symmetry; apply Z.ltb_ge; by apply Hall).
    eexists. split; reflexivity.
Qed.

Lemma pickPhysicalDevice_selects_max_witness :
  (∃ best s',
     run pickPhysicalDevice (fresh [integratedGpu; discreteGpu]) = (Ok (), s')
     ∧ physicalDevice s' = Some best
     ∧ best ∈ [integratedGpu; discreteGpu]
     ∧ 0 < value (rateDeviceSuitability best)
     ∧ ∀ device, device ∈ [integratedGpu; discreteGpu] →
         value (rateDeviceSuitability device) ≤ value (rateDeviceSuitability best))
  ∧ (∃ s', run pickPhysicalDevice (fresh [])
           = (Throw "[ERROR] Failed to find GPUs with Vulkan support!", s')
           ∧ physicalDevice s' = None)
  ∧ (∃ s', run pickPhysicalDevice (fresh [bareGpu])
           = (Throw "[ERROR] Failed to find a suitable GPU!", s')
           ∧ physicalDevice s' = None).
Proof.
  split_and!.
  - apply (proj1 (proj2 (pickPhysicalDevice_selects_max
                           (fresh [integratedGpu; discreteGpu])))).
    exists discreteGpu. split; [right; left | done].
  - apply (proj1 (pickPhysicalDevice_selects_max (fresh []))). reflexivity.
  - apply (proj2 (proj2 (pickPhysicalDevice_selects_max (fresh [bareGpu])))).
    + discriminate.
    + intros device ->%list_elem_of_singleton. done.
Defined.

(** The scenario of two passing candidates: the discrete one is selected. *)
Example pickPhysicalDevice_prefers_discrete :
  value (rateDeviceSuitability integratedGpu) = 4106
  ∧ value (rateDeviceSuitability discreteGpu) = 9202
  ∧ physicalDevice (run pickPhysicalDevice (fresh [integratedGpu; discreteGpu])).2
    = Some discreteGpu
  ∧ physicalDevice (run pickPhysicalDevice (fresh [discreteGpu; integratedGpu])).2
    = Some discreteGpu.
Proof. vm_compute. done. Qed.

(** C3 fails on the code: a discrete GPU none of whose queue families can
    present has incomplete queue roles, yet it scores 1000 + 4096, is the
    device [pickPhysicalDevice] selects, and makes [createLogicalDevice]
    throw when it reads the empty present role.  [isDeviceSuitable] rejects
    the same device. *)
Lemma incomplete_roles_still_selected :
  isComplete (value (findQueueFamilies headlessGpu)) = false
  ∧ value (rateDeviceSuitability headlessGpu) = 5096
  ∧ value (isDeviceSuitable headlessGpu) = false
  ∧ ∃ s', run pickPhysicalDevice (fresh [headlessGpu]) = (Ok (), s')
          ∧ physicalDevice s' = Some headlessGpu
          ∧ (run createLogicalDevice_uniqueQueueFamilies s').1
            = Throw "bad optional access".
Proof.
  split_and!; [by vm_compute | by vm_compute | by vm_compute |].
  eexists. split_and!; [by vm_compute | by vm_compute | by vm_compute].
Qed.

Section surface_format.

Lemma preferredFormat_test f :
  (format f =? VK_FORMAT_B8G8R8A8_SRGB)
  && (colorSpace f =? VK_COLOR_SPACE_SRGB_NONLINEAR_KHR) = true
  ↔ preferredFormat f.
Proof. unfold preferredFormat. rewrite andb_true_iff, !Z.eqb_eq. done. Qed.

Lemma chooseSwapSurfaceFormat_loop_Some l f :
  chooseSwapSurfaceFormat_loop l = Some f →
  ∃ i, l !! i = Some f ∧ preferredFormat f
       ∧ ∀ j g, (j < i)%nat → l !! j = Some g → ¬ preferredFormat g.
Proof.
  induction l as [|x l IH]; [done|]. simpl.
  destruct (_ && _) eqn:E.
  - intros [= ->]. exists 0%nat. split_and!; [done | by apply preferredFormat_test | lia].
  - intros Hrest. destruct (IH Hrest) as [i [Hi [Hf Hlow]]].
    exists (S i). split_and!; [done | done |].
    intros [|j] g Hj; simpl.
    + intros [= ->] Hg%preferredFormat_test. congruence.
    + apply Hlow. lia.
Qed.

Lemma chooseSwapSurfaceFormat_loop_None l :
  chooseSwapSurfaceFormat_loop l = None →
  ∀ g, g ∈ l → ¬ preferredFormat g.
Proof.
  induction l as [|x l IH]; simpl.
  - intros _ g Hg. by apply elem_of_nil in Hg.
  - destruct (_ && _) eqn:E; [done|].
    intros Hrest g [->|Hg]%elem_of_cons.
    + intros Hx%preferredFormat_test. congruence.
    + by apply IH.
Qed.

(** The read of index 0 is the only way to fail, and only when the vector
    is empty. *)
Lemma chooseSwapSurfaceFormat_total l :
  l ≠ [] → ∃ f, chooseSwapSurfaceFormat l = Some f ∧ f ∈ l.
Proof.
  intros Hne. unfold chooseSwapSurfaceFormat.
  destruct (chooseSwapSurfaceFormat_loop l) as [f|] eqn:E.
  - exists f. split; [done|].
    apply chooseSwapSurfaceFormat_loop_Some in E as [i [Hi _]].
    by apply list_elem_of_lookup_2 in Hi.
  - destruct l as [|x l]; [done|]. exists x. split; [done | left].
Qed.

End surface_format.

(** C8: on a non-empty list [chooseSwapSurfaceFormat] returns the first
    entry that is B8G8R8A8_SRGB in the sRGB non-linear colour space, and
    the entry at index 0 when no entry is. *)
Theorem chooseSwapSurfaceFormat_first_preferred_or_front
    (availableFormats : list VkSurfaceFormatKHR) :
  availableFormats ≠ [] →
  ∃ chosen,
    chooseSwapSurfaceFormat availableFormats = Some chosen
    ∧ ((∃ i, availableFormats !! i = Some chosen
             ∧ preferredFormat chosen
             ∧ ∀ j earlier, (j < i)%nat → availableFormats !! j = Some earlier →
                            ¬ preferredFormat earlier)
       ∨ ((∀ entry, entry ∈ availableFormats → ¬ preferredFormat entry)
          ∧ availableFormats !! 0%nat = Some chosen)).
Proof.
  intros Hne. unfold chooseSwapSurfaceFormat.
  destruct (chooseSwapSurfaceFormat_loop availableFormats) as [f|] eqn:E.
  - exists f. split; [done|]. left. by apply chooseSwapSurfaceFormat_loop_Some.
  - destruct availableFormats as [|x l]; [done|]. exists x. split; [done|].
    right. split; [|done]. by apply chooseSwapSurfaceFormat_loop_None.
Qed.

Lemma chooseSwapSurfaceFormat_first_preferred_or_front_witness :
  ∃ chosen,
    chooseSwapSurfaceFormat [rgbaUnorm; bgraSrgb] = Some chosen
    ∧ ((∃ i, [rgbaUnorm; bgraSrgb] !! i = Some chosen
             ∧ preferredFormat chosen
             ∧ ∀ j earlier, (j < i)%nat → [rgbaUnorm; bgraSrgb] !! j = Some earlier →
                            ¬ preferredFormat earlier)
       ∨ ((∀ entry, entry ∈ [rgbaUnorm; bgraSrgb] → ¬ preferredFormat entry)
          ∧ [rgbaUnorm; bgraSrgb] !! 0%nat = Some chosen)).
Proof.
  apply (chooseSwapSurfaceFormat_first_preferred_or_front [rgbaUnorm; bgraSrgb]).
  discriminate.
Defined.

Example chooseSwapSurfaceFormat_examples :
  chooseSwapSurfaceFormat [rgbaUnorm; bgraSrgb] = Some bgraSrgb
  ∧ chooseSwapSurfaceFormat [rgbaUnorm] = Some rgbaUnorm
  ∧ chooseSwapSurfaceFormat [] = None.
Proof. done. Qed.

Section swapchain_after_selection.

Lemma positive_score_not_vetoed device :
  0 < value (rateDeviceSuitability device) →
  geometryShader (deviceFeatures device) ≠ 0
  ∧ value (checkDeviceExtensionSupport device) = true
  ∧ formats device ≠ [] ∧ presentModes device ≠ [].
Proof.
  rewrite rateDeviceSuitability_value.
  pose proof (truthy_true (geometryShader (deviceFeatures device))) as Hg.
  pose proof (checkAdequateSwapChain_spec device) as Ha.
  destruct (truthy _), (value (checkDeviceExtensionSupport device)),
           (value (checkAdequateSwapChain device)); simpl; try lia.
  intros _. split_and!; [by apply Hg | done | by apply Ha | by apply Ha].
Qed.

Lemma createSwapChain_defined s device :
  physicalDevice s = Some device → formats device ≠ [] →
  ∃ createInfo s', run createSwapChain s = (Ok createInfo, s').
Proof.
  intros Hdevice Hformats. unfold createSwapChain.
  rewrite run_bind. cbn [get_physicalDevice run]. rewrite Hdevice.
  rewrite run_bind. cbn [query run]. rewrite querySwapChainSupport_value.
  cbn [details_formats].
  destruct (chooseSwapSurfaceFormat_total _ Hformats) as [f [-> _]].
  eexists. eexists. reflexivity.
Qed.

End swapchain_after_selection.

(** C9: a device with a positive score has a non-empty format list and a
    non-empty present-mode list, so [chooseSwapSurfaceFormat] returns an
    entry of its format list; and after a successful [pickPhysicalDevice],
    [createSwapChain] fills its create info without reading out of
    bounds. *)
Theorem positive_score_swapchain_defined :
  (∀ device, 0 < value (rateDeviceSuitability device) →
     formats device ≠ [] ∧ presentModes device ≠ []
     ∧ ∃ chosen, chooseSwapSurfaceFormat (formats device) = Some chosen
                 ∧ chosen ∈ formats device)
  ∧ (∀ s s', run pickPhysicalDevice s = (Ok (), s') →
       ∃ createInfo s'', run createSwapChain s' = (Ok createInfo, s'')).
Proof.
  split.
  - intros device Hpos.
    destruct (positive_score_not_vetoed device Hpos) as (_ & _ & Hf & Hp).
    split_and!; [done | done | by apply chooseSwapSurfaceFormat_total].
  - intros s s'. rewrite pickPhysicalDevice_run. cbv zeta.
    destruct (physicalDevices (instance s)) as [|d rest] eqn:Hdevices; [done|].
    destruct (rated_best (d :: rest)) as [best [Hlast [Hbest Hmax]]]; [done|].
    rewrite Hlast. cbn [fst snd].
    destruct (Z.ltb_spec 0 (value (rateDeviceSuitability best))) as [Hpos|]; [|done].
    intros [= <-].
    destruct (positive_score_not_vetoed best Hpos) as (_ & _ & Hf & _).
    by apply (createSwapChain_defined _ best).
Qed.

Lemma positive_score_swapchain_defined_witness :
  (formats discreteGpu ≠ [] ∧ presentModes discreteGpu ≠ []
   ∧ ∃ chosen, chooseSwapSurfaceFormat (formats discreteGpu) = Some chosen
               ∧ chosen ∈ formats discreteGpu)
  ∧ ∃ createInfo s'',
      run createSwapChain (run pickPhysicalDevice (fresh [discreteGpu])).2
      = (Ok createInfo, s'').
Proof.
  split.
  - apply (proj1 positive_score_swapchain_defined discreteGpu). done.
  - apply (proj2 positive_score_swapchain_defined (fresh [discreteGpu])).
    reflexivity.
Defined.

Section swap_extent.

Lemma chooseSwapExtent_keeps caps :
  width (currentExtent caps) ≠ UINT32_MAX →
  chooseSwapExtent caps = currentExtent caps.
Proof.
  intros Hne. unfold chooseSwapExtent.
  by replace (width (currentExtent caps) =? UINT32_MAX) with false
    by (symmetry; by apply Z.eqb_neq).
Qed.

Lemma chooseSwapExtent_clamps caps :
  width (currentExtent caps) = UINT32_MAX →
  chooseSwapExtent caps =
    {| width := Z.max (width (minImageExtent caps))
                      (Z.min (width (maxImageExtent caps)) WIDTH);
       height := Z.max (height (minImageExtent caps))
                       (Z.min (height (maxImageExtent caps)) HEIGHT) |}.
Proof. intros Hmax. unfold chooseSwapExtent. by rewrite Hmax, Z.eqb_refl. Qed.

End swap_extent.

(** C6: when the width of [currentExtent] is the largest [uint32_t] (as it
    is in the reserved extent (0xFFFFFFFF, 0xFFFFFFFF)), [chooseSwapExtent]
    returns the window size (WIDTH, HEIGHT) clamped componentwise between
    [minImageExtent] and [maxImageExtent]: the window size itself when (and,
    for ordered bounds, only when) it lies within the bounds, the nearest
    bound otherwise; when the width of [currentExtent] is anything else it
    returns [currentExtent] unchanged.
    For the free-extent surface with bounds (1,1) and (4096,4096) the
    result is (800,600). *)
Theorem chooseSwapExtent_clamps_or_keeps :
  (∀ caps, width (currentExtent caps) = UINT32_MAX →
     let chosen := chooseSwapExtent caps in
     let lo := minImageExtent caps in
     let hi := maxImageExtent caps in
     (width lo ≤ WIDTH ≤ width hi → width chosen = WIDTH)
     ∧ (WIDTH < width lo → width chosen = width lo)
     ∧ (width lo ≤ width hi → width hi < WIDTH → width chosen = width hi)
     ∧ (height lo ≤ HEIGHT ≤ height hi → height chosen = HEIGHT)
     ∧ (HEIGHT < height lo → height chosen = height lo)
     ∧ (height lo ≤ height hi → height hi < HEIGHT → height chosen = height hi)
     ∧ (width lo ≤ width hi →
        width lo ≤ width chosen ≤ width hi
        ∧ (width chosen = WIDTH ↔ width lo ≤ WIDTH ≤ width hi))
     ∧ (height lo ≤ height hi →
        height lo ≤ height chosen ≤ height hi
        ∧ (height chosen = HEIGHT ↔ height lo ≤ HEIGHT ≤ height hi)))
  ∧ (∀ caps, width (currentExtent caps) ≠ UINT32_MAX →
       chooseSwapExtent caps = currentExtent caps)
  ∧ chooseSwapExtent freeExtentSurface = {| width := 800; height := 600 |}.
Proof.
  split_and!.
  - intros caps Hmax chosen lo hi. subst chosen lo hi.
    rewrite chooseSwapExtent_clamps by done. cbn [width height].
    split_and!; lia.
  - apply chooseSwapExtent_keeps.
  - reflexivity.
Qed.

Lemma chooseSwapExtent_clamps_or_keeps_witness :
  width (chooseSwapExtent freeExtentSurface) = WIDTH
  ∧ chooseSwapExtent (imageCounts 2 0) = {| width := 800; height := 600 |}.
Proof.
  split.
  - apply (proj1 chooseSwapExtent_clamps_or_keeps freeExtentSurface); done.
  - apply (proj1 (proj2 chooseSwapExtent_clamps_or_keeps) (imageCounts 2 0)). done.
Defined.

(** C10: only the width of [currentExtent] decides between the two
    branches.  When the width is not the largest [uint32_t] the current
    extent is returned unchanged, also when its height is the largest
    [uint32_t]; and replacing the height of [currentExtent] by any value
    never changes the branch taken. *)
Theorem chooseSwapExtent_tests_width_only :
  (∀ caps, width (currentExtent caps) ≠ UINT32_MAX →
     height (currentExtent caps) = UINT32_MAX →
     chooseSwapExtent caps = currentExtent caps)
  ∧ (∀ caps h, width (currentExtent caps) ≠ UINT32_MAX →
       chooseSwapExtent (with_current_height caps h)
       = {| width := width (currentExtent caps); height := h |})
  ∧ (∀ caps h, width (currentExtent caps) = UINT32_MAX →
       chooseSwapExtent (with_current_height caps h) = chooseSwapExtent caps).
Proof.
  split_and!.
  - intros caps Hne _. by apply chooseSwapExtent_keeps.
  - intros caps h Hne. by rewrite chooseSwapExtent_keeps.
  - intros caps h Hmax. by rewrite !chooseSwapExtent_clamps.
Qed.

Lemma chooseSwapExtent_tests_width_only_witness :
  chooseSwapExtent (with_current_height (imageCounts 2 0) UINT32_MAX)
  = {| width := 800; height := UINT32_MAX |}
  ∧ chooseSwapExtent (with_current_height freeExtentSurface 5)
    = {| width := 800; height := 600 |}.
Proof.
  split.
  - apply (proj1 chooseSwapExtent_tests_width_only
             (with_current_height (imageCounts 2 0) UINT32_MAX)); done.
  - rewrite (proj2 (proj2 chooseSwapExtent_tests_width_only) freeExtentSurface 5);
      done.
Defined.

(** C7 (as amended): for a surface whose [minImageCount] is below the
    largest [uint32_t], the image count is [minImageCount + 1], except that
    it is [maxImageCount] when that is nonzero and smaller than
    [minImageCount + 1]; so when [maxImageCount] is 0 or at least
    [minImageCount], the count is at least [minImageCount] and, for a
    nonzero [maxImageCount], at most [maxImageCount].  Counts (2, 0) give
    3 and counts (2, 2) give 2. *)
Theorem createSwapChain_imageCount_clamped :
  (∀ caps,
     is_uint32 (minImageCount caps) → is_uint32 (maxImageCount caps) →
     minImageCount caps < UINT32_MAX →
     let count := createSwapChain_imageCount caps in
     (maxImageCount caps ≠ 0 → maxImageCount caps < minImageCount caps + 1 →
      count = maxImageCount caps)
     ∧ (maxImageCount caps = 0 ∨ minImageCount caps + 1 ≤ maxImageCount caps →
        count = minImageCount caps + 1)
     ∧ (maxImageCount caps = 0 ∨ minImageCount caps ≤ maxImageCount caps →
        minImageCount caps ≤ count
        ∧ (maxImageCount caps ≠ 0 → count ≤ maxImageCount caps)))
  ∧ createSwapChain_imageCount (imageCounts 2 0) = 3
  ∧ createSwapChain_imageCount (imageCounts 2 2) = 2.
Proof.
  split_and!; [|reflexivity..].
  intros caps [Hmin0 _] [Hmax0 _] Hmin count. subst count.
  unfold createSwapChain_imageCount.
  rewrite to_uint32_small by (unfold UINT32_MAX in *; lia).
  destruct (Z.ltb_spec 0 (maxImageCount caps)),
           (Z.ltb_spec (maxImageCount caps) (minImageCount caps + 1));
    cbn [andb]; split_and!; lia.
Qed.

Lemma createSwapChain_imageCount_clamped_witness :
  createSwapChain_imageCount (imageCounts 3 8) = 3 + 1
  ∧ createSwapChain_imageCount (imageCounts 3 3) = 3.
Proof.
  split.
  - apply (proj1 createSwapChain_imageCount_clamped (imageCounts 3 8));
      unfold is_uint32, UINT32_MAX; simpl; lia.
  - apply (proj1 createSwapChain_imageCount_clamped (imageCounts 3 3));
      unfold is_uint32, UINT32_MAX; simpl; lia.
Defined.

(** C7 (as stated) fails: for a surface with [minImageCount = 0xFFFFFFFF]
    and no maximum, [minImageCount + 1] wraps to 0, which is neither
    [minImageCount + 1] nor at least [minImageCount]. *)
Lemma createSwapChain_imageCount_wraps :
  minImageCount saturatedSurface = 4294967295
  ∧ maxImageCount saturatedSurface = 0
  ∧ createSwapChain_imageCount saturatedSurface = 0
  ∧ createSwapChain_imageCount saturatedSurface
    ≠ minImageCount saturatedSurface + 1
  ∧ ¬ (minImageCount saturatedSurface
       ≤ createSwapChain_imageCount saturatedSurface).
Proof. vm_compute. split_and!; done. Qed.

(** What [createSwapChain] hands to the driver for the selected device. *)
Lemma createSwapChain_createInfo s device createInfo s' :
  physicalDevice s = Some device →
  run createSwapChain s = (Ok createInfo, s') →
  createInfo_minImageCount createInfo
  = createSwapChain_imageCount (capabilities device)
  ∧ createInfo_imageExtent createInfo = chooseSwapExtent (capabilities device)
  ∧ chooseSwapSurfaceFormat (formats device)
    = Some {| format := createInfo_imageFormat createInfo;
              colorSpace := createInfo_imageColorSpace createInfo |}
  ∧ createInfo_presentMode createInfo
    = chooseSwapPresentMode (presentModes device).
Proof.
  intros Hdevice. unfold createSwapChain.
  rewrite run_bind. cbn [get_physicalDevice run]. rewrite Hdevice.
  rewrite run_bind. cbn [query run]. rewrite querySwapChainSupport_value.
  cbn [details_formats details_capabilities details_presentModes].
  destruct (chooseSwapSurfaceFormat (formats device)) as [[fmt space]|]; [|done].
  intros [= <- _]. done.
Qed.

(** * Further properties of the code *)

Section queue_roles.

Lemma findQueueFamilies_value device :
  Z.of_nat (length (queueFamilies device)) ≤ INT_MAX →
  value (findQueueFamilies device) =
    {| graphicsFamily :=
         Z.of_nat <$> last_match graphicsCapable
                        (take (visited (queueFamilies device)) (queueFamilies device));
       presentFamily :=
         Z.of_nat <$> last_match presentCapable
                        (take (visited (queueFamilies device)) (queueFamilies device)) |}.
Proof.
  intros Hfit.
  destruct (findQueueFamilies_loop_spec device Hfit (queueFamilies device) []
              {| graphicsFamily := None; presentFamily := None |})
    as [Hv _]; [done | done |].
  simpl in Hv. change (Z.of_nat 0) with 0 in Hv.
  rewrite visited_from_start in Hv.
  unfold findQueueFamilies. rewrite !value_bind.
  change (value (vkGetPhysicalDeviceQueueFamilyProperties device))
    with (properties <$> queueFamilies device).
  rewrite Hv.
  destruct (last_match graphicsCapable _), (last_match presentCapable _); done.
Qed.

Lemma recorded_role_points_at_match (p : QueueFamily → bool) families n role :
  Z.of_nat <$> last_match p (take n families) = Some role →
  0 ≤ role < Z.of_nat (length families)
  ∧ ∃ family, families !! Z.to_nat role = Some family ∧ p family = true.
Proof.
  destruct (last_match p (take n families)) as [j|] eqn:E; [|done].
  intros [= <-]. apply last_match_Some in E as [[x [Hx Hpx]] _].
  apply lookup_take_Some in Hx as [Hx _]. rewrite Nat2Z.id.
  split; [|by exists x].
  apply lookup_lt_Some in Hx. lia.
Qed.

End queue_roles.

(** X1: every role [findQueueFamilies] records is the index of an existing
    queue family of the device, and that family has the capability the role
    stands for: the graphics role points at a family whose flags include
    the graphics bit, the present role at a family that can present to the
    surface. *)
Theorem findQueueFamilies_roles_point_at_capable_families
    (device : VkPhysicalDevice) :
  Z.of_nat (length (queueFamilies device)) ≤ INT_MAX →
  (∀ g, graphicsFamily (value (findQueueFamilies device)) = Some g →
     0 ≤ g < Z.of_nat (length (queueFamilies device))
     ∧ ∃ family, queueFamilies device !! Z.to_nat g = Some family
                 ∧ graphicsCapable family = true)
  ∧ (∀ p, presentFamily (value (findQueueFamilies device)) = Some p →
     0 ≤ p < Z.of_nat (length (queueFamilies device))
     ∧ ∃ family, queueFamilies device !! Z.to_nat p = Some family
                 ∧ presentCapable family = true).
Proof.
  intros Hfit. rewrite findQueueFamilies_value by done.
  cbn [graphicsFamily presentFamily].
  split; intros role; apply recorded_role_points_at_match.
Qed.

Lemma findQueueFamilies_roles_point_at_capable_families_witness :
  (∀ g, graphicsFamily (value (findQueueFamilies twoFamilyGpu)) = Some g →
     0 ≤ g < 2
     ∧ ∃ family, queueFamilies twoFamilyGpu !! Z.to_nat g = Some family
                 ∧ graphicsCapable family = true)
  ∧ (∀ p, presentFamily (value (findQueueFamilies twoFamilyGpu)) = Some p →
     0 ≤ p < 2
     ∧ ∃ family, queueFamilies twoFamilyGpu !! Z.to_nat p = Some family
                 ∧ presentCapable family = true).
Proof.
  apply (findQueueFamilies_roles_point_at_capable_families twoFamilyGpu).
  vm_compute. discriminate.
Defined.

(** X2: the roles [findQueueFamilies] returns are complete exactly when the
    device has some graphics-capable family and some family that can
    present to the surface (they may be the same family or two). *)
Theorem findQueueFamilies_complete_iff_both_kinds_exist
    (device : VkPhysicalDevice) :
  Z.of_nat (length (queueFamilies device)) ≤ INT_MAX →
  isComplete (value (findQueueFamilies device)) = true ↔
  (∃ family, family ∈ queueFamilies device ∧ graphicsCapable family = true)
  ∧ (∃ family, family ∈ queueFamilies device ∧ presentCapable family = true).
Proof. apply findQueueFamilies_complete_iff. Qed.

Lemma findQueueFamilies_complete_iff_both_kinds_exist_witness :
  isComplete (value (findQueueFamilies twoFamilyGpu)) = true
  ∧ ¬ ((∃ family, family ∈ queueFamilies headlessGpu
                  ∧ graphicsCapable family = true)
       ∧ (∃ family, family ∈ queueFamilies headlessGpu
                    ∧ presentCapable family = true)).
Proof.
  split.
  - apply (findQueueFamilies_complete_iff_both_kinds_exist twoFamilyGpu).
    + vm_compute. discriminate.
    + split; exists universalFamily; (split; [right; left | done]).
  - intros Hboth.
    apply (findQueueFamilies_complete_iff_both_kinds_exist headlessGpu) in Hboth.
    + discriminate Hboth.
    + vm_compute. discriminate.
Defined.

(** X3: [checkDeviceExtensionSupport] answers true exactly when every
    required device extension is among the names the device reports; the
    answer depends only on the set of reported names, not on their order or
    on repetitions. *)
Theorem checkDeviceExtensionSupport_iff_required_available :
  (∀ device,
     value (checkDeviceExtensionSupport device) = true ↔
     ∀ name, name ∈ deviceExtensions →
             name ∈ extensionName <$> availableExtensions device)
  ∧ (∀ device1 device2,
       (∀ name, name ∈ extensionName <$> availableExtensions device1
                ↔ name ∈ extensionName <$> availableExtensions device2) →
       value (checkDeviceExtensionSupport device1)
       = value (checkDeviceExtensionSupport device2)).
Proof.
  split; [apply checkDeviceExtensionSupport_spec|].
  intros device1 device2 Hsame.
  pose proof (checkDeviceExtensionSupport_spec device1) as H1.
  pose proof (checkDeviceExtensionSupport_spec device2) as H2.
  destruct (value (checkDeviceExtensionSupport device1)),
           (value (checkDeviceExtensionSupport device2)); try done.
  - destruct H2 as [_ H2]. symmetry. apply H2.
    intros name Hname. apply Hsame. by apply H1.
  - destruct H1 as [_ H1]. apply H1.
    intros name Hname. apply Hsame. by apply H2.
Qed.

Lemma checkDeviceExtensionSupport_iff_required_available_witness :
  value (checkDeviceExtensionSupport discreteGpu)
  = value (checkDeviceExtensionSupport integratedGpu).
Proof.
  apply (proj2 checkDeviceExtensionSupport_iff_required_available).
  done.
Defined.

Section swapchain_queries.

Lemma querySwapChainSupport_issued device :
  issued (querySwapChainSupport device) =
    [GetPhysicalDeviceSurfaceCapabilitiesKHR device;
     GetPhysicalDeviceSurfaceFormatsKHR device]
    ++ (if vector_empty (formats device) then []
        else [GetPhysicalDeviceSurfaceFormatsKHR device])
    ++ [GetPhysicalDeviceSurfacePresentModesKHR device]
    ++ (if vector_empty (presentModes device) then []
        else [GetPhysicalDeviceSurfacePresentModesKHR device]).
Proof.
  unfold querySwapChainSupport, vkGetPhysicalDeviceSurfaceFormatsKHR,
    vkGetPhysicalDeviceSurfacePresentModesKHR.
  rewrite !issued_bind, ?value_bind. cbn [value issued]. rewrite !truthy_length.
  destruct (formats device), (presentModes device); reflexivity.
Qed.

Lemma rateDeviceSuitability_queries device :
  existsb isSwapChainQuery (issued (rateDeviceSuitability device))
  = truthy (geometryShader (deviceFeatures device))
    && value (checkDeviceExtensionSupport device).
Proof.
  unfold rateDeviceSuitability. rewrite !issued_bind, ?value_bind, !existsb_app.
  rewrite findQueueFamilies_no_swapchain_query,
    checkDeviceExtensionSupport_no_swapchain_query.
  change (value (vkGetPhysicalDeviceFeatures device)) with (deviceFeatures device).
  destruct (truthy (geometryShader (deviceFeatures device))),
           (value (checkDeviceExtensionSupport device));
    cbn [negb orb andb]; reflexivity.
Qed.

End swapchain_queries.

(** X4: [querySwapChainSupport] returns the capabilities, the formats and
    the present modes exactly as the driver reports them, empty lists
    included; it asks for the capabilities once and for each list once to
    learn its length and a second time only when that length is not zero. *)
Theorem querySwapChainSupport_returns_what_the_driver_reports
    (device : VkPhysicalDevice) :
  value (querySwapChainSupport device) =
    {| details_capabilities := capabilities device;
       details_formats := formats device;
       details_presentModes := presentModes device |}
  ∧ issued (querySwapChainSupport device) =
      [GetPhysicalDeviceSurfaceCapabilitiesKHR device;
       GetPhysicalDeviceSurfaceFormatsKHR device]
      ++ (if vector_empty (formats device) then []
          else [GetPhysicalDeviceSurfaceFormatsKHR device])
      ++ [GetPhysicalDeviceSurfacePresentModesKHR device]
      ++ (if vector_empty (presentModes device) then []
          else [GetPhysicalDeviceSurfacePresentModesKHR device]).
Proof.
  split; [apply querySwapChainSupport_value | apply querySwapChainSupport_issued].
Qed.

(** X5: [rateDeviceSuitability] queries the swapchain support of the
    surface exactly for the devices that have the geometry shader and every
    required extension; a device it vetoes for either reason is never asked
    about the surface. *)
Theorem rateDeviceSuitability_queries_swapchain_only_past_first_veto
    (device : VkPhysicalDevice) :
  existsb isSwapChainQuery (issued (rateDeviceSuitability device)) = true ↔
  geometryShader (deviceFeatures device) ≠ 0
  ∧ ∀ name, name ∈ deviceExtensions →
            name ∈ extensionName <$> availableExtensions device.
Proof.
  rewrite rateDeviceSuitability_queries, andb_true_iff, truthy_true.
  by rewrite checkDeviceExtensionSupport_spec.
Qed.

(** X6: [chooseSwapPresentMode] returns the mailbox mode when it occurs
    anywhere in the list and the FIFO mode otherwise, whether or not the
    list contains the FIFO mode (it may even be empty). *)
Theorem chooseSwapPresentMode_mailbox_or_fifo
    (availablePresentModes : list VkPresentModeKHR) :
  (VK_PRESENT_MODE_MAILBOX_KHR ∈ availablePresentModes →
   chooseSwapPresentMode availablePresentModes = VK_PRESENT_MODE_MAILBOX_KHR)
  ∧ (VK_PRESENT_MODE_MAILBOX_KHR ∉ availablePresentModes →
     chooseSwapPresentMode availablePresentModes = VK_PRESENT_MODE_FIFO_KHR).
Proof.
  induction availablePresentModes as [|mode rest [IHin IHout]]; simpl.
  - split; [intros H; by apply elem_of_nil in H | done].
  - destruct (Z.eqb_spec mode VK_PRESENT_MODE_MAILBOX_KHR) as [->|Hne].
    + split; [done|]. intros Hnot. destruct Hnot. left.
    + split.
      * intros [?|Hin]%elem_of_cons; [congruence | by apply IHin].
      * intros Hnot. apply IHout. intros Hin. apply Hnot. by right.
Qed.

Lemma chooseSwapPresentMode_mailbox_or_fifo_witness :
  chooseSwapPresentMode [VK_PRESENT_MODE_FIFO_KHR; VK_PRESENT_MODE_MAILBOX_KHR]
  = VK_PRESENT_MODE_MAILBOX_KHR
  ∧ chooseSwapPresentMode [0] = VK_PRESENT_MODE_FIFO_KHR.
Proof.
  split.
  - apply (proj1 (chooseSwapPresentMode_mailbox_or_fifo
                    [VK_PRESENT_MODE_FIFO_KHR; VK_PRESENT_MODE_MAILBOX_KHR])).
    right. left.
  - apply (proj2 (chooseSwapPresentMode_mailbox_or_fifo [0])).
    intros Hin%list_elem_of_singleton. discriminate Hin.
Defined.

(** X7: [chooseSwapSurfaceFormat] reads out of bounds exactly on the empty
    list.  When the list holds the preferred pair anywhere, the result is
    that pair, so reordering the list does not change it; when it holds no
    preferred pair, the result is whatever entry stands first. *)
Theorem chooseSwapSurfaceFormat_order
    (availableFormats : list VkSurfaceFormatKHR) :
  (chooseSwapSurfaceFormat availableFormats = None ↔ availableFormats = [])
  ∧ ((∃ entry, entry ∈ availableFormats ∧ preferredFormat entry) →
     chooseSwapSurfaceFormat availableFormats = Some bgraSrgb
     ∧ ∀ reordered, availableFormats ≡ₚ reordered →
         chooseSwapSurfaceFormat reordered = Some bgraSrgb)
  ∧ ((∀ entry, entry ∈ availableFormats → ¬ preferredFormat entry) →
     chooseSwapSurfaceFormat availableFormats = head availableFormats).
Proof.
  assert (∀ l, (∃ entry, entry ∈ l ∧ preferredFormat entry) →
               chooseSwapSurfaceFormat l = Some bgraSrgb) as Hpreferred.
  { intros l [entry [Hin Hpref]]. unfold chooseSwapSurfaceFormat.
    destruct (chooseSwapSurfaceFormat_loop l) as [[fmt space]|] eqn:E.
    - apply chooseSwapSurfaceFormat_loop_Some in E as [_ [_ [[Hf Hs] _]]].
      simpl in Hf, Hs. by subst.
    - destruct (chooseSwapSurfaceFormat_loop_None l E entry Hin Hpref). }
  split_and!.
  - split.
    + intros Hnone. destruct availableFormats as [|x l]; [done|].
      destruct (chooseSwapSurfaceFormat_total (x :: l)) as [f [Hf _]]; [done|].
      congruence.
    + by intros ->.
  - intros Hex. split; [by apply Hpreferred|].
    intros reordered Hperm. apply Hpreferred.
    destruct Hex as [entry [Hin Hpref]]. exists entry. by rewrite <- Hperm.
  - intros Hnone. unfold chooseSwapSurfaceFormat.
    destruct (chooseSwapSurfaceFormat_loop availableFormats) as [f|] eqn:E.
    + apply chooseSwapSurfaceFormat_loop_Some in E as [i [Hi [Hpref _]]].
      destruct (Hnone f); [by eapply list_elem_of_lookup_2 | done].
    + by destruct availableFormats.
Qed.

Lemma chooseSwapSurfaceFormat_order_witness :
  chooseSwapSurfaceFormat [rgbaUnorm; bgraSrgb] = Some bgraSrgb
  ∧ chooseSwapSurfaceFormat [bgraSrgb; rgbaUnorm] = Some bgraSrgb
  ∧ chooseSwapSurfaceFormat [rgbaUnorm] = head [rgbaUnorm].
Proof.
  assert (∃ entry, entry ∈ [rgbaUnorm; bgraSrgb] ∧ preferredFormat entry) as Hex.
  { exists bgraSrgb. split; [right; left | done]. }
  destruct (proj1 (proj2 (chooseSwapSurfaceFormat_order [rgbaUnorm; bgraSrgb])) Hex)
    as [Hfound Hreordered].
  split_and!.
  - exact Hfound.
  - apply Hreordered, Permutation_swap.
  - apply (proj2 (proj2 (chooseSwapSurfaceFormat_order [rgbaUnorm]))).
    intros entry ->%list_elem_of_singleton [Hf _]. discriminate Hf.
Defined.

Section selection_order.

Lemma rated_snoc devices device :
  rated (devices ++ [device]) []
  = multimap_insert (value (rateDeviceSuitability device), device)
                    (rated devices []).
Proof. unfold rated. by rewrite foldl_app. Qed.

(** [rbegin] after the loop is the last of the devices of greatest score. *)
Lemma rated_last_of_the_best devices :
  devices ≠ [] →
  ∃ pre best post,
    devices = pre ++ best :: post
    ∧ last (rated devices []) = Some (value (rateDeviceSuitability best), best)
    ∧ (∀ device, device ∈ pre →
         value (rateDeviceSuitability device) ≤ value (rateDeviceSuitability best))
    ∧ (∀ device, device ∈ post →
         value (rateDeviceSuitability device) < value (rateDeviceSuitability best)).
Proof.
  induction devices as [|d l IH] using rev_ind; [done|]. intros _.
  rewrite rated_snoc.
  destruct l as [|d0 l0].
  { exists [], d, []. split_and!; [done | done | |];
      intros device Hin; by apply elem_of_nil in Hin. }
  destruct IH as (pre & best & post & Hsplit & Hlast & Hpre & Hpost); [done|].
  pose proof (rated_greatest_last (d0 :: l0) [] greatest_last_nil) as Hgreat.
  destruct (Z.lt_ge_cases (value (rateDeviceSuitability d))
                          (value (rateDeviceSuitability best))) as [Hlt|Hge].
  - exists pre, best, (post ++ [d]). split_and!.
    + by rewrite Hsplit, <- app_assoc.
    + by apply multimap_insert_below.
    + done.
    + intros device [Hin|Hin%list_elem_of_singleton]%elem_of_app;
        [by apply Hpost | by subst].
  - exists (d0 :: l0), d, []. split_and!.
    + done.
    + rewrite multimap_insert_top; [by rewrite last_snoc|].
      intros e He. specialize (Hgreat _ Hlast e He). simpl in *. lia.
    + intros device Hin. rewrite Hsplit in Hin.
      apply elem_of_app in Hin as [Hin|[->|Hin]%elem_of_cons].
      * specialize (Hpre device Hin). lia.
      * lia.
      * specialize (Hpost device Hin). lia.
    + intros device Hin. by apply elem_of_nil in Hin.
Qed.

Lemma pickPhysicalDevice_Ok s s' :
  run pickPhysicalDevice s = (Ok (), s') →
  ∃ best, last (rated (physicalDevices (instance s)) [])
          = Some (value (rateDeviceSuitability best), best)
          ∧ 0 < value (rateDeviceSuitability best)
          ∧ physicalDevice s' = Some best
          ∧ physicalDevices (instance s) ≠ [].
Proof.
  rewrite pickPhysicalDevice_run. cbv zeta.
  destruct (physicalDevices (instance s)) as [|d rest] eqn:Hdevices; [done|].
  destruct (rated_best (d :: rest)) as [best [Hlast _]]; [done|].
  rewrite Hlast. cbn [fst snd].
  destruct (Z.ltb_spec 0 (value (rateDeviceSuitability best))) as [Hpos|]; [|done].
  intros [= <-]. by exists best.
Qed.

End selection_order.

(** X8: when several enumerated devices share the greatest score,
    [pickPhysicalDevice] selects the one enumerated last: every device
    enumerated before the selected one scores at most as much, every device
    enumerated after it scores strictly less. *)
Theorem pickPhysicalDevice_selects_last_of_equal_best (s s' : Session) :
  run pickPhysicalDevice s = (Ok (), s') →
  ∃ pre best post,
    physicalDevices (instance s) = pre ++ best :: post
    ∧ physicalDevice s' = Some best
    ∧ (∀ device, device ∈ pre →
         value (rateDeviceSuitability device) ≤ value (rateDeviceSuitability best))
    ∧ (∀ device, device ∈ post →
         value (rateDeviceSuitability device) < value (rateDeviceSuitability best)).
Proof.
  intros Hrun.
  destruct (pickPhysicalDevice_Ok s s' Hrun) as (best & Hlast & _ & Hsel & Hne).
  destruct (rated_last_of_the_best _ Hne)
    as (pre & best' & post & Hsplit & Hlast' & Hpre & Hpost).
  rewrite Hlast in Hlast'. injection Hlast' as Hscore ->.
  by exists pre, best', post.
Qed.

Lemma pickPhysicalDevice_selects_last_of_equal_best_witness :
  ∃ pre best post,
    [discreteGpu; twoFamilyGpu; integratedGpu] = pre ++ best :: post
    ∧ physicalDevice
        (run pickPhysicalDevice
           (fresh [discreteGpu; twoFamilyGpu; integratedGpu])).2 = Some best
    ∧ (∀ device, device ∈ pre →
         value (rateDeviceSuitability device) ≤ value (rateDeviceSuitability best))
    ∧ (∀ device, device ∈ post →
         value (rateDeviceSuitability device) < value (rateDeviceSuitability best)).
Proof.
  apply (pickPhysicalDevice_selects_last_of_equal_best
           (fresh [discreteGpu; twoFamilyGpu; integratedGpu])).
  reflexivity.
Defined.

(** Two devices of the same score: the one enumerated last is selected. *)
Example pickPhysicalDevice_tie :
  value (rateDeviceSuitability discreteGpu)
  = value (rateDeviceSuitability twoFamilyGpu)
  ∧ physicalDevice (run pickPhysicalDevice (fresh [discreteGpu; twoFamilyGpu])).2
    = Some twoFamilyGpu
  ∧ physicalDevice (run pickPhysicalDevice (fresh [twoFamilyGpu; discreteGpu])).2
    = Some discreteGpu.
Proof. vm_compute. done. Qed.

(** X9: the device [pickPhysicalDevice] selects is one of the enumerated
    devices and passed every veto of the scoring: it has the geometry
    shader, every required extension, and a surface with at least one
    format and one present mode. *)
Theorem pickPhysicalDevice_selected_passed_the_vetoes (s s' : Session) :
  run pickPhysicalDevice s = (Ok (), s') →
  ∃ selected,
    physicalDevice s' = Some selected
    ∧ selected ∈ physicalDevices (instance s)
    ∧ geometryShader (deviceFeatures selected) ≠ 0
    ∧ (∀ name, name ∈ deviceExtensions →
               name ∈ extensionName <$> availableExtensions selected)
    ∧ formats selected ≠ []
    ∧ presentModes selected ≠ [].
Proof.
  intros Hrun.
  destruct (pickPhysicalDevice_Ok s s' Hrun) as (best & Hlast & Hpos & Hsel & Hne).
  exists best.
  destruct (positive_score_not_vetoed best Hpos) as (Hg & Hx & Hf & Hp).
  split_and!; try done.
  - apply last_Some in Hlast as [l Hl].
    assert ((value (rateDeviceSuitability best), best)
            ∈ rated (physicalDevices (instance s)) []) as Hin.
    { rewrite Hl. apply elem_of_app. right. left. }
    apply rated_elem in Hin as [Hin | [device [Hdevice [= _ ->]]]];
      [by apply elem_of_nil in Hin | done].
  - by apply checkDeviceExtensionSupport_spec.
Qed.

Lemma pickPhysicalDevice_selected_passed_the_vetoes_witness :
  ∃ selected,
    physicalDevice (run pickPhysicalDevice (fresh [bareGpu; integratedGpu])).2
    = Some selected
    ∧ selected ∈ [bareGpu; integratedGpu]
    ∧ geometryShader (deviceFeatures selected) ≠ 0
    ∧ (∀ name, name ∈ deviceExtensions →
               name ∈ extensionName <$> availableExtensions selected)
    ∧ formats selected ≠ []
    ∧ presentModes selected ≠ [].
Proof.
  apply (pickPhysicalDevice_selected_passed_the_vetoes
           (fresh [bareGpu; integratedGpu])).
  reflexivity.
Defined.

Section suitable_devices.

Lemma isDeviceSuitable_score device :
  value (isDeviceSuitable device) = true →
  0 ≤ maxImageDimension2D (limits (deviceProperties device)) →
  maxImageDimension2D (limits (deviceProperties device)) + 1010 ≤ INT_MAX →
  value (rateDeviceSuitability device)
  = 1010 + maxImageDimension2D (limits (deviceProperties device)).
Proof.
  rewrite isDeviceSuitable_value, rateDeviceSuitability_value.
  rewrite !andb_true_iff. intros [[[[Hd Hg] Hc] Hx] [_ Ha]] Hdim Hsum.
  rewrite Hd, Hg, Hc, Hx, Ha. cbn [negb orb].
  unfold INT_MAX in Hsum.
  rewrite (to_uint32_small (0 + 1000 + 10)) by (unfold UINT32_MAX; lia).
  rewrite to_uint32_small by (unfold UINT32_MAX; lia).
  rewrite to_int_small by (unfold INT_MAX; lia). lia.
Qed.

End suitable_devices.

(** X10: a device [isDeviceSuitable] accepts, whose limit leaves room for
    the two bonuses in an [int], scores 1010 plus its limit; so when such a
    device is enumerated [pickPhysicalDevice] does not throw, and the device
    it selects scores at least as much. *)
Theorem suitable_device_makes_selection_succeed :
  (∀ device,
     value (isDeviceSuitable device) = true →
     0 ≤ maxImageDimension2D (limits (deviceProperties device)) →
     maxImageDimension2D (limits (deviceProperties device)) + 1010 ≤ INT_MAX →
     value (rateDeviceSuitability device)
     = 1010 + maxImageDimension2D (limits (deviceProperties device)))
  ∧ (∀ s device,
       device ∈ physicalDevices (instance s) →
       value (isDeviceSuitable device) = true →
       0 ≤ maxImageDimension2D (limits (deviceProperties device)) →
       maxImageDimension2D (limits (deviceProperties device)) + 1010 ≤ INT_MAX →
       ∃ selected s',
         run pickPhysicalDevice s = (Ok (), s')
         ∧ physicalDevice s' = Some selected
         ∧ value (rateDeviceSuitability device)
           ≤ value (rateDeviceSuitability selected)).
Proof.
  split; [apply isDeviceSuitable_score|].
  intros s device Hin Hsuit Hdim Hsum.
  pose proof (isDeviceSuitable_score device Hsuit Hdim Hsum) as Hscore.
  rewrite pickPhysicalDevice_run. cbv zeta.
  destruct (physicalDevices (instance s)) as [|d rest] eqn:Hdevices;
    [by apply elem_of_nil in Hin|].
  destruct (rated_best (d :: rest)) as [best [Hlast [_ Hmax]]]; [done|].
  rewrite Hlast. cbn [fst snd]. specialize (Hmax device Hin).
  replace (0 <? value (rateDeviceSuitability best)) with true
    by (symmetry; apply Z.ltb_lt; lia).
  exists best. eexists. split_and!; [reflexivity | reflexivity | done].
Qed.

Lemma suitable_device_makes_selection_succeed_witness :
  value (rateDeviceSuitability discreteGpu) = 1010 + 8192
  ∧ ∃ selected s',
      run pickPhysicalDevice (fresh [bareGpu; discreteGpu]) = (Ok (), s')
      ∧ physicalDevice s' = Some selected
      ∧ value (rateDeviceSuitability discreteGpu)
        ≤ value (rateDeviceSuitability selected).
Proof.
  split.
  - apply (proj1 suitable_device_makes_selection_succeed discreteGpu); done.
  - apply (proj2 suitable_device_makes_selection_succeed
             (fresh [bareGpu; discreteGpu]) discreteGpu);
      [right; left | done | done | done].
Defined.

(** X11: for every surface whose counts are [uint32_t] values, the image
    count [createSwapChain] requests is a [uint32_t] value that never
    exceeds a nonzero [maxImageCount] and never exceeds [minImageCount + 1];
    it is zero exactly when [minImageCount] is the largest [uint32_t]. *)
Theorem createSwapChain_imageCount_bounds (caps : VkSurfaceCapabilitiesKHR) :
  is_uint32 (minImageCount caps) → is_uint32 (maxImageCount caps) →
  let count := createSwapChain_imageCount caps in
  is_uint32 count
  ∧ (maxImageCount caps ≠ 0 → count ≤ maxImageCount caps)
  ∧ count ≤ minImageCount caps + 1
  ∧ (count = 0 ↔ minImageCount caps = UINT32_MAX).
Proof.
  unfold is_uint32, UINT32_MAX, createSwapChain_imageCount.
  intros Hmin Hmax. cbv zeta.
  destruct (decide (minImageCount caps = 4294967295)) as [E|Hne].
  - rewrite E. change (to_uint32 (4294967295 + 1)) with 0.
    destruct (Z.ltb_spec 0 (maxImageCount caps)),
             (Z.ltb_spec (maxImageCount caps) 0);
      cbn [andb]; lia.
  - rewrite to_uint32_small by (unfold UINT32_MAX; lia).
    destruct (Z.ltb_spec 0 (maxImageCount caps)),
             (Z.ltb_spec (maxImageCount caps) (minImageCount caps + 1));
      cbn [andb]; lia.
Qed.

Lemma createSwapChain_imageCount_bounds_witness :
  is_uint32 (createSwapChain_imageCount saturatedSurface)
  ∧ (maxImageCount saturatedSurface ≠ 0 →
     createSwapChain_imageCount saturatedSurface ≤ maxImageCount saturatedSurface)
  ∧ createSwapChain_imageCount saturatedSurface
    ≤ minImageCount saturatedSurface + 1
  ∧ (createSwapChain_imageCount saturatedSurface = 0
     ↔ minImageCount saturatedSurface = UINT32_MAX).
Proof.
  apply (createSwapChain_imageCount_bounds saturatedSurface);
    cbv [is_uint32 saturatedSurface minImageCount maxImageCount UINT32_MAX]; lia.
Defined.

Section logical_device.

Lemma createLogicalDevice_uniqueQueueFamilies_run s device :
  physicalDevice s = Some device →
  run createLogicalDevice_uniqueQueueFamilies s =
    let s' := {| instance := instance s;
                 physicalDevice := physicalDevice s;
                 driverCalls := driverCalls s ++ issued (findQueueFamilies device) |} in
    match graphicsFamily (value (findQueueFamilies device)),
          presentFamily (value (findQueueFamilies device)) with
    | Some graphics, Some present => (Ok ({[graphics; present]} : gset Z), s')
    | _, _ => (Throw "bad optional access", s')
    end.
Proof.
  intros Hdevice. unfold createLogicalDevice_uniqueQueueFamilies.
  rewrite run_bind. cbn [get_physicalDevice run]. rewrite Hdevice.
  rewrite run_bind. cbn [query run]. rewrite Hdevice.
  destruct (graphicsFamily (value (findQueueFamilies device))) as [g|];
    [|reflexivity].
  rewrite run_bind. cbn [optional_value mret App_ret run].
  destruct (presentFamily (value (findQueueFamilies device))) as [p|];
    reflexivity.
Qed.

End logical_device.

(** X12: for a selected device, [createLogicalDevice] throws
    [std::bad_optional_access] exactly when the queue roles of that device
    are incomplete; otherwise it requests queues for the set of the two
    role indices, which has one element when both roles fall on the same
    family and two when they do not.  Without a selected device the
    behaviour is undefined.  In no case does it change the selection. *)
Theorem createLogicalDevice_queue_families (s : Session) :
  (physicalDevice s = None →
   (run createLogicalDevice_uniqueQueueFamilies s).1 = Undefined)
  ∧ (∀ device, physicalDevice s = Some device →
       ((run createLogicalDevice_uniqueQueueFamilies s).1
        = Throw "bad optional access"
        ↔ isComplete (value (findQueueFamilies device)) = false)
       ∧ (∀ graphics present,
            graphicsFamily (value (findQueueFamilies device)) = Some graphics →
            presentFamily (value (findQueueFamilies device)) = Some present →
            (run createLogicalDevice_uniqueQueueFamilies s).1
            = Ok ({[graphics; present]} : gset Z)
            ∧ size ({[graphics; present]} : gset Z)
              = if decide (graphics = present) then 1%nat else 2%nat))
  ∧ physicalDevice (run createLogicalDevice_uniqueQueueFamilies s).2
    = physicalDevice s.
Proof.
  split_and!.
  - intros Hnone. unfold createLogicalDevice_uniqueQueueFamilies.
    rewrite run_bind. cbn [get_physicalDevice run]. by rewrite Hnone.
  - intros device Hdevice.
    rewrite (createLogicalDevice_uniqueQueueFamilies_run s device Hdevice).
    unfold isComplete. cbv zeta.
    destruct (graphicsFamily (value (findQueueFamilies device))) as [g|],
             (presentFamily (value (findQueueFamilies device))) as [p|];
      cbn [fst]; (split; [split; done|]); intros graphics present; try done.
    intros [= <-] [= <-]. split; [done|].
    destruct (decide (g = p)) as [->|Hne].
    + replace ({[p; p]} : gset Z) with ({[p]} : gset Z) by set_solver.
      apply size_singleton.
    + rewrite size_union by set_solver. by rewrite !size_singleton.
  - destruct (physicalDevice s) as [device|] eqn:Hdevice.
    + rewrite (createLogicalDevice_uniqueQueueFamilies_run s device Hdevice).
      cbv zeta.
      by destruct (graphicsFamily (value (findQueueFamilies device))),
                  (presentFamily (value (findQueueFamilies device))).
    + unfold createLogicalDevice_uniqueQueueFamilies.
      rewrite run_bind. cbn [get_physicalDevice run]. by rewrite Hdevice.
Qed.

Lemma createLogicalDevice_queue_families_witness :
  (run createLogicalDevice_uniqueQueueFamilies (fresh [discreteGpu])).1 = Undefined
  ∧ (run createLogicalDevice_uniqueQueueFamilies
       (run pickPhysicalDevice (fresh [discreteGpu])).2).1
    = Ok ({[0; 0]} : gset Z)
  ∧ size ({[0; 0]} : gset Z) = 1%nat.
Proof.
  split.
  - apply (proj1 (createLogicalDevice_queue_families (fresh [discreteGpu]))).
    reflexivity.
  - apply (proj2 (proj1 (proj2 (createLogicalDevice_queue_families
                                   (run pickPhysicalDevice (fresh [discreteGpu])).2))
                    discreteGpu eq_refl) 0 0); reflexivity.
Defined.

Section swapchain_creation.

Lemma createSwapChain_run s device :
  physicalDevice s = Some device →
  run createSwapChain s =
    let s' := {| instance := instance s;
                 physicalDevice := Some device;
                 driverCalls :=
                   driverCalls s ++ issued (querySwapChainSupport device) |} in
    match chooseSwapSurfaceFormat (formats device) with
    | None => (Undefined, s')
    | Some surfaceFormat =>
        (Ok {| createInfo_minImageCount :=
                 createSwapChain_imageCount (capabilities device);
               createInfo_imageFormat := format surfaceFormat;
               createInfo_imageColorSpace := colorSpace surfaceFormat;
               createInfo_imageExtent := chooseSwapExtent (capabilities device);
               createInfo_imageArrayLayers := 1;
               createInfo_preTransform := currentTransform (capabilities device);
               createInfo_presentMode :=
                 chooseSwapPresentMode (presentModes device);
               createInfo_clipped := VK_TRUE |}, s')
    end.
Proof.
  intros Hdevice. unfold createSwapChain.
  rewrite run_bind. cbn [get_physicalDevice run]. rewrite Hdevice.
  rewrite run_bind. cbn [query run]. rewrite querySwapChainSupport_value, Hdevice.
  cbn [details_formats details_capabilities details_presentModes].
  destruct (chooseSwapSurfaceFormat (formats device)); reflexivity.
Qed.

End swapchain_creation.

(** X13: [createSwapChain] never throws before it calls the driver; its
    only failure there is the undefined read of the first format, which
    happens exactly when no device is selected or the selected device
    reports no format.  Otherwise it leaves the selection as it is, queries
    the swapchain support of the selected device once, and hands the driver
    the image count, extent, format and present mode that the four choosing
    functions give for that device. *)
Theorem createSwapChain_outcome (s : Session) :
  ((run createSwapChain s).1 = Undefined ↔
     physicalDevice s = None
     ∨ ∃ device, physicalDevice s = Some device ∧ formats device = [])
  ∧ (∀ what, (run createSwapChain s).1 ≠ Throw what)
  ∧ (∀ device createInfo s',
       physicalDevice s = Some device →
       run createSwapChain s = (Ok createInfo, s') →
       physicalDevice s' = Some device
       ∧ instance s' = instance s
       ∧ driverCalls s' = driverCalls s ++ issued (querySwapChainSupport device)
       ∧ createInfo_minImageCount createInfo
         = createSwapChain_imageCount (capabilities device)
       ∧ createInfo_imageExtent createInfo = chooseSwapExtent (capabilities device)
       ∧ chooseSwapSurfaceFormat (formats device)
         = Some {| format := createInfo_imageFormat createInfo;
                   colorSpace := createInfo_imageColorSpace createInfo |}
       ∧ createInfo_presentMode createInfo
         = chooseSwapPresentMode (presentModes device)).
Proof.
  destruct (physicalDevice s) as [device|] eqn:Hdevice.
  - rewrite (createSwapChain_run s device Hdevice). cbv zeta.
    destruct (chooseSwapSurfaceFormat (formats device)) as [[fmt space]|] eqn:E.
    + split_and!.
      * split; [done|]. intros [|[d [[= <-] Hempty]]]; [done|].
        rewrite Hempty in E. done.
      * done.
      * intros d createInfo s' [= <-] [= <- <-]. split_and!; done.
    + split_and!; [|done|done].
      split; [|done]. intros _. right. exists device. split; [done|].
      destruct (formats device) as [|x l] eqn:Hf; [done|].
      destruct (chooseSwapSurfaceFormat_total (x :: l)) as [f [Hsome _]]; [done|].
      congruence.
  - unfold createSwapChain. rewrite run_bind. cbn [get_physicalDevice run].
    rewrite Hdevice. cbn [undefined run fst].
    split_and!; [split; [by left | done] | done | done].
Qed.

Lemma createSwapChain_outcome_witness :
  (run createSwapChain (fresh [discreteGpu])).1 = Undefined
  ∧ ∃ createInfo s',
      run createSwapChain (run pickPhysicalDevice (fresh [discreteGpu])).2
      = (Ok createInfo, s')
      ∧ createInfo_minImageCount createInfo = 3
      ∧ createInfo_imageExtent createInfo = {| width := 800; height := 600 |}.
Proof.
  split.
  - apply (proj1 (createSwapChain_outcome (fresh [discreteGpu]))). by left.
  - eexists. eexists. split; [reflexivity|].
    pose proof (proj2 (proj2 (createSwapChain_outcome
                                (run pickPhysicalDevice (fresh [discreteGpu])).2))
                  discreteGpu _ _ eq_refl eq_refl) as (_ & _ & _ & Hcount & Hextent & _).
    split; [exact Hcount | exact Hextent].
Defined.

Section validation_layers.

Lemma checkValidationLayerSupport_layerFound_spec wanted availableLayers :
  checkValidationLayerSupport_layerFound wanted availableLayers = true ↔
  wanted ∈ layerName <$> availableLayers.
Proof.
  induction availableLayers as [|x l IH]; simpl.
  - split; [done | intros H; by apply elem_of_nil in H].
  - destruct (String.eqb_spec wanted (layerName x)) as [->|Hne].
    + split; [intros _; left | done].
    + rewrite IH, elem_of_cons. naive_solver.
Qed.

Lemma checkValidationLayerSupport_loop_spec layers availableLayers :
  checkValidationLayerSupport_loop layers availableLayers = true ↔
  ∀ name, name ∈ layers → name ∈ layerName <$> availableLayers.
Proof.
  induction layers as [|wanted rest IH]; simpl.
  - split; [intros _ name H; by apply elem_of_nil in H | done].
  - destruct (checkValidationLayerSupport_layerFound wanted availableLayers) eqn:E;
      cbn [negb].
    + apply checkValidationLayerSupport_layerFound_spec in E.
      rewrite IH. split.
      * intros Hrest name [->|Hin]%elem_of_cons; [done | by apply Hrest].
      * intros Hall name Hin. apply Hall. by right.
    + split; [done|]. intros Hall.
      assert (wanted ∈ layerName <$> availableLayers) as Hin by (apply Hall; left).
      apply checkValidationLayerSupport_layerFound_spec in Hin. congruence.
Qed.

End validation_layers.

(** X14: [checkValidationLayerSupport] answers true exactly when every
    requested validation layer is among the layers the loader reports,
    compared by name. *)
Theorem checkValidationLayerSupport_iff_all_layers_available
    (availableLayers : list VkLayerProperties) :
  checkValidationLayerSupport availableLayers = true ↔
  ∀ name, name ∈ validationLayers → name ∈ layerName <$> availableLayers.
Proof. apply checkValidationLayerSupport_loop_spec. Qed.

(** X15: [createInstance] throws its validation-layer error exactly when
    validation is enabled and some validation layer is not available, and
    then whatever [vkCreateInstance] would answer; with validation disabled
    the available layers are never consulted.  When it returns, the driver
    answered [VK_SUCCESS] for a create info that asks for the extensions of
    GLFW, followed by the debug-utils extension exactly when validation is
    enabled, and for the validation layers exactly when validation is
    enabled, with a layer count equal to the number of layer names. *)
Theorem createInstance_outcome (enable : bool)
    (availableLayers : list VkLayerProperties) (glfwExtensions : list string)
    (vkCreateInstance : VkInstanceCreateInfo → VkResult) :
  let created :=
    createInstance enable availableLayers glfwExtensions vkCreateInstance in
  (created = Throw "[ERROR] Validation layers requested, but not available!" ↔
     enable = true
     ∧ ¬ ∀ name, name ∈ validationLayers → name ∈ layerName <$> availableLayers)
  ∧ (enable = false →
     ∀ otherLayers,
       createInstance enable otherLayers glfwExtensions vkCreateInstance = created)
  ∧ (∀ createInfo, created = Ok createInfo →
       vkCreateInstance createInfo = VK_SUCCESS
       ∧ ppEnabledExtensionNames createInfo
         = glfwExtensions
           ++ (if enable then [VK_EXT_DEBUG_UTILS_EXTENSION_NAME] else [])
       ∧ ppEnabledLayerNames createInfo = (if enable then validationLayers else [])
       ∧ enabledLayerCount createInfo
         = Z.of_nat (length (ppEnabledLayerNames createInfo))
       ∧ (is_Some (pNext createInfo) ↔ enable = true)).
Proof.
  intros created. subst created. unfold createInstance, getRequiredExtensions.
  pose proof (checkValidationLayerSupport_loop_spec validationLayers availableLayers)
    as Hlayers.
  fold (checkValidationLayerSupport availableLayers) in Hlayers.
  split_and!.
  - destruct enable; cbn [andb].
    + destruct (checkValidationLayerSupport availableLayers); cbn [negb].
      * destruct (vkCreateInstance _ =? VK_SUCCESS); cbn [negb];
          (split; [done|]); intros [_ Hnot]; destruct Hnot; by apply Hlayers.
      * split; [|done]. intros _. split; [done|]. intros Hall.
        apply Hlayers in Hall. done.
    + destruct (vkCreateInstance _ =? VK_SUCCESS); cbn [negb];
        (split; [done | by intros [? _]]).
  - intros -> otherLayers. reflexivity.
  - intros createInfo.
    destruct enable; cbn [andb].
    + destruct (checkValidationLayerSupport availableLayers); cbn [negb]; [|done].
      destruct (Z.eqb_spec (vkCreateInstance
                  {| enabledExtensionCount :=
                       to_uint32 (Z.of_nat (length
                         (glfwExtensions ++ [VK_EXT_DEBUG_UTILS_EXTENSION_NAME])));
                     ppEnabledExtensionNames :=
                       glfwExtensions ++ [VK_EXT_DEBUG_UTILS_EXTENSION_NAME];
                     enabledLayerCount :=
                       to_uint32 (Z.of_nat (length validationLayers));
                     ppEnabledLayerNames := validationLayers;
                     pNext := Some populateDebugMessengerCreateInfo |})
                  VK_SUCCESS) as [Hok|]; cbn [negb]; [|done].
      intros [= <-]. split_and!; [done | done | done | done |].
      cbn [pNext]. split; [done | by eexists].
    + destruct (Z.eqb_spec (vkCreateInstance
                  {| enabledExtensionCount :=
                       to_uint32 (Z.of_nat (length glfwExtensions));
                     ppEnabledExtensionNames := glfwExtensions;
                     enabledLayerCount := 0;
                     ppEnabledLayerNames := [];
                     pNext := None |})
                  VK_SUCCESS) as [Hok|]; cbn [negb]; [|done].
      intros [= <-]. split_and!; [done | by rewrite app_nil_r | done | done |].
      cbn [pNext]. split; [by intros [? ?] | done].
Qed.

Lemma createInstance_outcome_witness :
  createInstance true [] ["VK_KHR_surface"] (λ _, VK_SUCCESS)
  = Throw "[ERROR] Validation layers requested, but not available!"
  ∧ createInstance false [] ["VK_KHR_surface"] (λ _, VK_SUCCESS)
    = createInstance false [{| layerName := "VK_LAYER_KHRONOS_validation" |}]
        ["VK_KHR_surface"] (λ _, VK_SUCCESS).
Proof.
  split.
  - apply (proj1 (createInstance_outcome true [] ["VK_KHR_surface"]
                    (λ _, VK_SUCCESS))).
    split; [done|]. intros Hall.
    specialize (Hall "VK_LAYER_KHRONOS_validation"%string).
    apply elem_of_nil in Hall; [done | left].
  - symmetry.
    apply (proj1 (proj2 (createInstance_outcome false [] ["VK_KHR_surface"]
                           (λ _, VK_SUCCESS)))).
    reflexivity.
Defined.

(** X16: [setupDebugMessenger] returns normally exactly when validation is
    disabled, or the loader finds [vkCreateDebugUtilsMessengerEXT] and that
    function answers [VK_SUCCESS] for the populated create info; in every
    other case, in particular when the loader returns a null pointer, it
    throws its error. *)
Theorem setupDebugMessenger_outcome (enable : bool)
    (func : option (VkDebugUtilsMessengerCreateInfoEXT → VkResult)) :
  (setupDebugMessenger enable func = Ok () ↔
     enable = false
     ∨ ∃ create, func = Some create
                 ∧ create populateDebugMessengerCreateInfo = VK_SUCCESS)
  ∧ (setupDebugMessenger enable func ≠ Ok () →
     setupDebugMessenger enable func
     = Throw "[ERROR] Failed to set up debug messenger!")
  ∧ (enable = true → func = None →
     setupDebugMessenger enable func
     = Throw "[ERROR] Failed to set up debug messenger!").
Proof.
  unfold setupDebugMessenger, createDebugUtilsMessengerEXT.
  destruct enable; cbn [negb].
  - destruct func as [create|].
    + destruct (Z.eqb_spec (create populateDebugMessengerCreateInfo) VK_SUCCESS)
        as [Hok|Hbad]; cbn [negb].
      * split_and!; [|done|done]. split; [|done]. intros _. right. by exists create.
      * split_and!; [|done|done]. split; [done|].
        intros [|[c [[= <-] Hc]]]; done.
    + change (VK_ERROR_EXTENSION_NOT_PRESENT =? VK_SUCCESS) with false. cbn [negb].
      split_and!; [|done|done]. split; [done|]. intros [|[c [? _]]]; done.
  - split_and!; [|done|done]. split; [by left | done].
Qed.

Lemma setupDebugMessenger_outcome_witness :
  setupDebugMessenger true None
  = Throw "[ERROR] Failed to set up debug messenger!"
  ∧ setupDebugMessenger true (Some (λ _, VK_SUCCESS)) = Ok ().
Proof.
  split.
  - apply (proj2 (proj2 (setupDebugMessenger_outcome true None))); reflexivity.
  - apply (proj1 (setupDebugMessenger_outcome true (Some (λ _, VK_SUCCESS)))).
    right. eexists. split; reflexivity.
Defined.

(** X17: on a non-empty device list [pickPhysicalDevice] enumerates the
    devices twice (for the count, then for the handles) and then rates
    every enumerated device exactly once, in enumeration order, without
    stopping at a device with a positive score and whether or not it ends
    by throwing; on an empty list it enumerates once and rates nothing.  It
    never changes the instance. *)
Theorem pickPhysicalDevice_rates_every_device_once (s : Session) :
  let after := (run pickPhysicalDevice s).2 in
  instance after = instance s
  ∧ (physicalDevices (instance s) = [] →
     driverCalls after = driverCalls s ++ [EnumeratePhysicalDevices])
  ∧ (physicalDevices (instance s) ≠ [] →
     driverCalls after =
       driverCalls s
       ++ [EnumeratePhysicalDevices; EnumeratePhysicalDevices]
       ++ (physicalDevices (instance s)
             ≫= λ device, issued (rateDeviceSuitability device))).
Proof.
  cbv zeta. rewrite pickPhysicalDevice_run. cbv zeta.
  destruct (physicalDevices (instance s)) as [|d rest] eqn:Hdevices.
  - split_and!; done.
  - destruct (last (rated (d :: rest) [])) as [best|].
    + destruct (0 <? best.1); cbn [snd instance driverCalls];
        (split_and!; [done | done |]); intros _; by rewrite <- !app_assoc.
    + cbn [snd instance driverCalls].
      split_and!; [done | done |]. intros _. by rewrite <- !app_assoc.
Qed.

Lemma pickPhysicalDevice_rates_every_device_once_witness :
  driverCalls (run pickPhysicalDevice (fresh [])).2 = [EnumeratePhysicalDevices]
  ∧ driverCalls (run pickPhysicalDevice (fresh [bareGpu; discreteGpu])).2
    = [EnumeratePhysicalDevices; EnumeratePhysicalDevices]
      ++ issued (rateDeviceSuitability bareGpu)
      ++ issued (rateDeviceSuitability discreteGpu).
Proof.
  split.
  - apply (proj1 (proj2 (pickPhysicalDevice_rates_every_device_once (fresh [])))).
    reflexivity.
  - rewrite (proj2 (proj2 (pickPhysicalDevice_rates_every_device_once
                             (fresh [bareGpu; discreteGpu])))) by discriminate.
    reflexivity.
Defined.
